(** * KAR archiver: a shallow embedding of the container format, the CRC-32
      engine and the pack / unpack / list operations.

    Sources embedded here:
    - [include/crc32.hpp]    (class [CRC32])
    - [src/format.hpp]       ([FileHeader], [EntryHeader], [KAR_MAGIC])
    - [src/archiver.cpp]     ([Archiver::pack], [unpack], [list], [write_entry])
    - [archiver.cpp]         (the earlier single-file archiver, module [Legacy])

    Modelling conventions.
    - A [uint32_t] / [uint64_t] / [uint16_t] is a [Z] with the wrap-around of
      every narrowing cast written out ([wrap]).
    - Bytes are [Byte.byte]; buffers and streams are [list byte]; paths are
      [string]s (a C++ [std::string] is a byte string, and so is [string]).
    - The structs are [#pragma pack(1)] and written with a raw [write] of
      their memory: fields are laid out in declaration order, little-endian.
    - The file system is a finite map from path to regular file; creating
      directories and opening output files always succeeds, and memory
      allocation never fails.
    - [current_timestamp()] reads a clock; the k-th reading made by an
      operation is [clock k]. *)

From Stdlib Require Import ZArith List Lia Strings.Byte Strings.Ascii Strings.String.
From stdpp Require Import base list gmap strings pretty.
Import ListNotations.

(* ===================================================================== *)
(** * Bytes and fixed-width integers                                      *)
(* ===================================================================== *)

Definition Z_of_byte (b : byte) : Z := Z.of_N (Byte.to_N b).

Definition byte_of_Z (z : Z) : byte :=
  match Byte.of_N (Z.to_N (z mod 256)) with
  | Some b => b
  | None => "000"%byte
  end.

(** [static_cast<uintW_t>]: reduction modulo [2^W]. *)
Definition wrap (bits : Z) (z : Z) : Z := (z mod 2 ^ bits)%Z.

(** The [n] bytes of the in-memory representation of an unsigned integer,
    least significant byte first. *)
Fixpoint le_bytes (n : nat) (z : Z) : list byte :=
  match n with
  | O => []
  | S n' => byte_of_Z z :: le_bytes n' (Z.shiftr z 8)
  end.

(** The unsigned integer held by a little-endian byte sequence. *)
Fixpoint le_value (bs : list byte) : Z :=
  match bs with
  | [] => 0%Z
  | b :: bs' => (Z_of_byte b + 256 * le_value bs')%Z
  end.

(* ===================================================================== *)
(** * include/crc32.hpp                                                   *)
(* ===================================================================== *)

Module CRC32.

Definition POLYNOMIAL : Z := 0xEDB88320%Z.

(** One pass of the inner loop of [init_table]:
    [if (crc & 1) crc = (crc >> 1) ^ POLYNOMIAL; else crc >>= 1;] *)
Definition shift_xor (crc : Z) : Z :=
  if negb (Z.land crc 1 =? 0)%Z
  then Z.lxor (Z.shiftr crc 1) POLYNOMIAL
  else Z.shiftr crc 1.

(** [init_table]: [table_[i]] is [i] after 8 passes, for [i] in [0, 256). *)
Definition init_table : list Z :=
  map (fun i => Nat.iter 8 shift_xor (Z.of_nat i)) (seq 0 256).

(** The table the constructor leaves in the object. *)
Definition table_ : list Z := init_table.

(** Body of the loop of [calculate]:
    [table_index = (crc ^ data[i]) & 0xFF; crc = (crc >> 8) ^ table_[table_index];] *)
Definition step (crc : Z) (b : byte) : Z :=
  let table_index := Z.land (Z.lxor crc (Z_of_byte b)) 0xFF in
  Z.lxor (Z.shiftr crc 8) (nth (Z.to_nat table_index) table_ 0%Z).

(** [uint32_t calculate(const uint8_t* data, size_t len) const] *)
Definition calculate (data : list byte) : Z :=
  Z.lxor (fold_left step data 0xFFFFFFFF%Z) 0xFFFFFFFF%Z.

(** Reference definition, bit at a time, of the reflected CRC-32 of
    IEEE 802.3, written from the standard and not from the source: the
    byte is XORed into the low end of the register, the register is
    divided by the polynomial one bit at a time. It uses no table. *)
Definition bitwise_step (crc : Z) (b : byte) : Z :=
  Nat.iter 8 shift_xor (Z.lxor crc (Z_of_byte b)).

Definition crc32_ieee (data : list byte) : Z :=
  Z.lxor (fold_left bitwise_step data 0xFFFFFFFF%Z) 0xFFFFFFFF%Z.

End CRC32.

(* ===================================================================== *)
(** * src/format.hpp                                                      *)
(* ===================================================================== *)

Record FileHeader := {
  magic : Z;        (* uint32_t *)
  version : Z;      (* uint16_t *)
  entry_count : Z;  (* uint32_t *)
  created_at : Z;   (* uint64_t *)
  reserved : Z      (* uint32_t *)
}.

Record EntryHeader := {
  path_length : Z;    (* uint32_t *)
  content_size : Z;   (* uint64_t *)
  modified_time : Z;  (* uint64_t *)
  checksum : Z;       (* uint32_t *)
  permissions : Z     (* uint16_t *)
}.

Definition KAR_MAGIC : Z := 0x5241414B%Z.

(** [sizeof(FileHeader)] and [sizeof(EntryHeader)] under [#pragma pack(1)]. *)
Definition sizeof_FileHeader : nat := 4 + 2 + 4 + 8 + 4.
Definition sizeof_EntryHeader : nat := 4 + 8 + 8 + 4 + 2.

(** The memory image of the structs, as [reinterpret_cast<const char *>]
    exposes it to [write]. *)
Definition FileHeader_bytes (h : FileHeader) : list byte :=
  le_bytes 4 (magic h) ++ le_bytes 2 (version h) ++ le_bytes 4 (entry_count h)
  ++ le_bytes 8 (created_at h) ++ le_bytes 4 (reserved h).

Definition EntryHeader_bytes (e : EntryHeader) : list byte :=
  le_bytes 4 (path_length e) ++ le_bytes 8 (content_size e)
  ++ le_bytes 8 (modified_time e) ++ le_bytes 4 (checksum e)
  ++ le_bytes 2 (permissions e).

(** The struct a memory image denotes, as [read] into
    [reinterpret_cast<char *>(&h)] leaves it. *)
Definition field (off len : nat) (mem : list byte) : Z :=
  le_value (take len (drop off mem)).

Definition FileHeader_of_bytes (mem : list byte) : FileHeader :=
  {| magic := field 0 4 mem;
     version := field 4 2 mem;
     entry_count := field 6 4 mem;
     created_at := field 10 8 mem;
     reserved := field 18 4 mem |}.

Definition EntryHeader_of_bytes (mem : list byte) : EntryHeader :=
  {| path_length := field 0 4 mem;
     content_size := field 4 8 mem;
     modified_time := field 12 8 mem;
     checksum := field 20 4 mem;
     permissions := field 24 2 mem |}.

(* ===================================================================== *)
(** * Streams, paths and the file system                                  *)
(* ===================================================================== *)

(** A [std::ifstream] opened with [std::ios::binary]: the bytes of the
    file, the get position, and [failbit]. A stream whose file could not be
    opened has [failbit] set; [operator!] tests it. *)
Record ifstream := {
  buf : list byte;
  gpos : nat;
  failbit : bool
}.

Definition ifstream_open (file : option (list byte)) : ifstream :=
  match file with
  | Some bs => {| buf := bs; gpos := 0; failbit := false |}
  | None => {| buf := []; gpos := 0; failbit := true |}
  end.

(** [s.read(p, n)], where [old] is what the [n] bytes at [p] held before the
    call. A stream that is not good extracts nothing and leaves the
    destination as it was. Otherwise the available bytes, at most [n], are
    copied to the front of the destination; extracting fewer than [n] sets
    [failbit]. *)
Definition read (s : ifstream) (n : nat) (old : list byte)
  : list byte * ifstream :=
  if failbit s then (old, s)
  else
    let avail := drop (gpos s) (buf s) in
    if decide (n ≤ length avail)
    then (take n avail,
          {| buf := buf s; gpos := gpos s + n; failbit := false |})
    else (avail ++ drop (length avail) old,
          {| buf := buf s; gpos := gpos s + length avail; failbit := true |}).

(** [s.seekg(off, std::ios::cur)] with [off] a [uint64_t] converted to the
    signed [std::streamoff]. A stream with [failbit] set is left alone. The
    file position may move past the end of the file; a position that would
    be negative makes the seek fail. *)
Definition seekg_cur (s : ifstream) (off : Z) : ifstream :=
  if failbit s then s
  else
    let off' := (if off <? 2 ^ 63 then off else off - 2 ^ 64)%Z in
    let p := (Z.of_nat (gpos s) + off')%Z in
    if (p <? 0)%Z
    then {| buf := buf s; gpos := gpos s; failbit := true |}
    else {| buf := buf s; gpos := Z.to_nat p; failbit := false |}.

(** [std::filesystem::path] on a POSIX system. *)
Definition is_absolute (p : string) : bool :=
  match p with
  | String "/"%char _ => true
  | _ => false
  end.

Fixpoint has_filename (p : string) : bool :=
  match p with
  | EmptyString => false
  | String c EmptyString => negb (Ascii.eqb c "/"%char)
  | String _ rest => has_filename rest
  end.

(** [base / rel]: an absolute right operand replaces the left one; otherwise
    a separator is added after a left operand that ends in a file name. *)
Definition path_join (base rel : string) : string :=
  if is_absolute rel then rel
  else if has_filename base then base +:+ "/" +:+ rel
  else base +:+ rel.

(** A regular file on disk: its bytes and its permission bits. *)
Record file := {
  bytes : list byte;
  perms : Z
}.

(** What [unpack] does with a verified entry: [create_directories] of the
    parent, an [ofstream] on [out_path] that receives the buffer, then
    [fs::permissions] (which keeps the bits of [perms::mask], 07777). The
    three calls are taken to succeed, as they do when [out_path] names a
    file that can be created; a file system in which they fail (a regular
    file where a directory is needed, a directory at [out_path]) is not
    described by this map. *)
Definition write_file (out_path : string) (buffer : list byte) (mode : Z)
  (fs : gmap string file) : gmap string file :=
  <[out_path := {| bytes := buffer; perms := Z.land mode 4095 |}]> fs.

(** A regular file found by the recursive walk of the source directory:
    its path relative to the source directory, its bytes, and the
    modification time and permission bits the file system holds for it. *)
Record source_file := {
  rel_path : string;
  content : list byte;
  mtime : Z;
  mode : Z
}.

(** The [std::runtime_error]s of the archiver, by message. *)
Inductive error :=
| SourceMissing          (* "Source directory does not exist" *)
| CannotCreateArchive    (* "Cannot create archive file" *)
| CannotOpenArchive      (* "Cannot open archive file" *)
| WrongMagic             (* "Invalid archive format (wrong magic number)" *)
| CrcMismatch (path : string) (expected got : Z).
                         (* "CRC32 mismatch for file: <path> (expected: <e>, got: <g>)" *)

Inductive result (A : Type) :=
| Ok (a : A)
| Err (e : error).
Arguments Ok {A} a.
Arguments Err {A} e.

(* ===================================================================== *)
(** * src/archiver.cpp                                                    *)
(* ===================================================================== *)

(** What [list] prints: the entry count of the header, then one line per
    entry with its path and its [content_size] (the source renders the size
    through [format_size]; the number itself is kept here). *)
Record listing := {
  shown_count : Z;
  lines : list (string * Z)
}.

Module Archiver.
Section Environment.

(** Successive readings of [current_timestamp()]. *)
Variable clock : nat -> Z.

(** [FileHeader global_header;] and [EntryHeader entry;] are declared
    without an initialiser: what they hold before [read] fills them is
    not determined by the program. [uninit_entry i] is the content of
    [entry] at the start of iteration [i]. *)
Variable uninit_header : FileHeader.
Variable uninit_entry : nat -> EntryHeader.

(** [write_entry]: the bytes appended to the archive for one file, [now]
    being the reading of the clock made while the header is filled. *)
Definition write_entry (now : Z) (f : source_file) : list byte :=
  let rel := list_byte_of_string (rel_path f) in
  let buffer := content f in
  let crc := CRC32.calculate buffer in
  let entry := {| path_length := wrap 32 (Z.of_nat (length rel));
                  content_size := wrap 64 (Z.of_nat (length buffer));
                  modified_time := wrap 64 now;
                  checksum := crc;
                  permissions := 420 (* 0644 *) |} in
  EntryHeader_bytes entry ++ rel ++ buffer.

(** The loop of [pack] over the collected files; [k] counts the readings
    of the clock made so far. *)
Fixpoint write_entries (k : nat) (files : list source_file) : list byte :=
  match files with
  | [] => []
  | f :: rest => write_entry (clock k) f ++ write_entries (S k) rest
  end.

(** [pack]: [source_dir] is the list of regular files under the source
    directory in the order of the walk, or [None] when the directory does
    not exist; [creatable] tells whether the archive file can be created.
    The archive file is taken to lie outside the source directory. The
    result is the content of the archive file. *)
Definition pack (source_dir : option (list source_file)) (creatable : bool)
  : result (list byte) :=
  match source_dir with
  | None => Err SourceMissing
  | Some files =>
      if negb creatable then Err CannotCreateArchive
      else
        let global_header :=
          {| magic := KAR_MAGIC;
             version := 1;
             entry_count := wrap 32 (Z.of_nat (length files));
             created_at := wrap 64 (clock 0);
             reserved := 0 |} in
        Ok (FileHeader_bytes global_header ++ write_entries 1 files)
  end.

(** The loop of [unpack]: [n] iterations remain, [i] is the loop index.
    The body is the text of the private [read_entry], which this version
    of the file keeps but never calls. The constructions of [rel_path] and
    of [buffer] are taken to succeed: a [content_size] of 2^63 or more, at
    which [std::vector] throws [std::length_error], and an allocation that
    fails are not described, nor is a file-system call that throws. *)
Fixpoint unpack_loop (n i : nat) (archive : ifstream) (target_dir : string)
  (fs : gmap string file) : gmap string file * result unit :=
  match n with
  | O => (fs, Ok tt)
  | S n' =>
      let '(mem, archive) :=
        read archive sizeof_EntryHeader (EntryHeader_bytes (uninit_entry i)) in
      let entry := EntryHeader_of_bytes mem in
      let plen := Z.to_nat (path_length entry) in
      let '(rel, archive) := read archive plen (repeat "000"%byte plen) in
      let rel_path := string_of_list_byte rel in
      let clen := Z.to_nat (content_size entry) in
      let '(buffer, archive) := read archive clen (repeat "000"%byte clen) in
      let calculated_crc := CRC32.calculate buffer in
      if negb (calculated_crc =? checksum entry)%Z
      then (fs, Err (CrcMismatch rel_path (checksum entry) calculated_crc))
      else
        let out_path := path_join target_dir rel_path in
        unpack_loop n' (S i) archive target_dir
          (write_file out_path buffer (permissions entry) fs)
  end.

(** [unpack]: [archive_file] is the content of the file at
    [archive_path], or [None] when it cannot be opened. The result is the
    file system after the call, and how the call ended. *)
Definition unpack (archive_file : option (list byte)) (target_dir : string)
  (fs : gmap string file) : gmap string file * result unit :=
  let archive := ifstream_open archive_file in
  if failbit archive then (fs, Err CannotOpenArchive)
  else
    let '(mem, archive) :=
      read archive sizeof_FileHeader (FileHeader_bytes uninit_header) in
    let global_header := FileHeader_of_bytes mem in
    if negb (magic global_header =? KAR_MAGIC)%Z then (fs, Err WrongMagic)
    else
      let total_entries := entry_count global_header in
      unpack_loop (Z.to_nat total_entries) 0 archive target_dir fs.

(** The loop of [list]. *)
Fixpoint list_loop (n i : nat) (archive : ifstream) : list (string * Z) :=
  match n with
  | O => []
  | S n' =>
      let '(mem, archive) :=
        read archive sizeof_EntryHeader (EntryHeader_bytes (uninit_entry i)) in
      let entry := EntryHeader_of_bytes mem in
      let plen := Z.to_nat (path_length entry) in
      let '(rel, archive) := read archive plen (repeat "000"%byte plen) in
      let rel_path := string_of_list_byte rel in
      let archive := seekg_cur archive (content_size entry) in
      (rel_path, content_size entry) :: list_loop n' (S i) archive
  end.

(** [list]: no test of the stream, no test of the magic number. *)
Definition list (archive_file : option (Datatypes.list byte))
  : result listing :=
  let archive := ifstream_open archive_file in
  let '(mem, archive) :=
    read archive sizeof_FileHeader (FileHeader_bytes uninit_header) in
  let global_header := FileHeader_of_bytes mem in
  Ok {| shown_count := entry_count global_header;
        lines := list_loop (Z.to_nat (entry_count global_header)) 0 archive |}.

(** [static_cast<int>] of an unsigned value: the low 32 bits, read as a
    signed number. *)
Definition to_int (v : Z) : Z :=
  let w := wrap 32 v in
  (if w <? 2 ^ 31 then w else w - 2 ^ 32)%Z.

(** The progress figures of the loop of [pack], where [i] and
    [total_files] are [size_t] (64 bits) and [bar_width] is 30:
    [progress = (i + 1) * 100 / total_files],
    [pos = bar_width * (i + 1) / total_files]. *)
Definition pack_progress (i total_files : Z) : Z :=
  to_int (wrap 64 (wrap 64 (i + 1) * 100) / total_files)%Z.

Definition pack_pos (i total_files : Z) : Z :=
  to_int (wrap 64 (30 * wrap 64 (i + 1)) / total_files)%Z.

(** The same figures in the loop of [unpack], where [i] and
    [total_entries] are [uint32_t]. *)
Definition unpack_progress (i total_entries : Z) : Z :=
  to_int (wrap 32 (wrap 32 (i + 1) * 100) / total_entries)%Z.

Definition unpack_pos (i total_entries : Z) : Z :=
  to_int (wrap 32 (30 * wrap 32 (i + 1)) / total_entries)%Z.

End Environment.
End Archiver.

(** * archiver.cpp, the earlier single-file archiver *)
Module Legacy.
Section Environment.

Variable uninit_header : FileHeader.
Variable uninit_entry : nat -> EntryHeader.

Definition MAGIC : Z := 0x5241414B%Z.

(** [write_entry] of the single-file version: [.checksum = 0], marked
    [TODO] in the source. *)
Definition write_entry (now : Z) (f : source_file) : list byte :=
  let rel := list_byte_of_string (rel_path f) in
  let buffer := content f in
  let entry := {| path_length := wrap 32 (Z.of_nat (length rel));
                  content_size := wrap 64 (Z.of_nat (length buffer));
                  modified_time := wrap 64 now;
                  checksum := 0;
                  permissions := 420 (* 0644 *) |} in
  EntryHeader_bytes entry ++ rel ++ buffer.

(** [read_entry] of the single-file version: the checksum is not looked
    at. [i] tells which call this is, for the uninitialised [entry]. As in
    [Archiver.unpack_loop], the constructions of [rel_path] and [buffer]
    and the file-system calls are taken to succeed. *)
Definition read_entry (i : nat) (archive : ifstream) (target_dir : string)
  (fs : gmap string file) : ifstream * gmap string file :=
  let '(mem, archive) :=
    read archive sizeof_EntryHeader (EntryHeader_bytes (uninit_entry i)) in
  let entry := EntryHeader_of_bytes mem in
  let plen := Z.to_nat (path_length entry) in
  let '(rel, archive) := read archive plen (repeat "000"%byte plen) in
  let rel_path := string_of_list_byte rel in
  let clen := Z.to_nat (content_size entry) in
  let '(buffer, archive) := read archive clen (repeat "000"%byte clen) in
  let out_path := path_join target_dir rel_path in
  (archive, write_file out_path buffer (permissions entry) fs).

Fixpoint unpack_loop (n i : nat) (archive : ifstream) (target_dir : string)
  (fs : gmap string file) : gmap string file :=
  match n with
  | O => fs
  | S n' =>
      let '(archive, fs) := read_entry i archive target_dir fs in
      unpack_loop n' (S i) archive target_dir fs
  end.

Definition unpack (archive_file : option (list byte)) (target_dir : string)
  (fs : gmap string file) : gmap string file * result unit :=
  let archive := ifstream_open archive_file in
  if failbit archive then (fs, Err CannotOpenArchive)
  else
    let '(mem, archive) :=
      read archive sizeof_FileHeader (FileHeader_bytes uninit_header) in
    let global_header := FileHeader_of_bytes mem in
    if negb (magic global_header =? MAGIC)%Z then (fs, Err WrongMagic)
    else
      (unpack_loop (Z.to_nat (entry_count global_header)) 0 archive
         target_dir fs, Ok tt).

(** Successive readings of [current_timestamp()]. *)
Variable clock : nat -> Z.

Fixpoint write_entries (k : nat) (files : list source_file) : list byte :=
  match files with
  | [] => []
  | f :: rest => write_entry (clock k) f ++ write_entries (S k) rest
  end.

(** [pack] of the single-file version. *)
Definition pack (source_dir : option (list source_file)) (creatable : bool)
  : result (list byte) :=
  match source_dir with
  | None => Err SourceMissing
  | Some files =>
      if negb creatable then Err CannotCreateArchive
      else
        let global_header :=
          {| magic := MAGIC;
             version := 1;
             entry_count := wrap 32 (Z.of_nat (length files));
             created_at := wrap 64 (clock 0);
             reserved := 0 |} in
        Ok (FileHeader_bytes global_header ++ write_entries 1 files)
  end.

End Environment.
End Legacy.

(* ===================================================================== *)
(** * src/main.cpp                                                        *)
(* ===================================================================== *)

(** [e.what()] for the errors of the archiver; [std::to_string] of a
    [uint32_t] is its decimal notation. *)
Definition what (e : error) : string :=
  match e with
  | SourceMissing => "Source directory does not exist"
  | CannotCreateArchive => "Cannot create archive file"
  | CannotOpenArchive => "Cannot open archive file"
  | WrongMagic => "Invalid archive format (wrong magic number)"
  | CrcMismatch path expected got =>
      "CRC32 mismatch for file: " +:+ path
        +:+ " (expected: " +:+ pretty (Z.to_N expected)
        +:+ ", got: " +:+ pretty (Z.to_N got) +:+ ")"
  end.

(** What a run of the program did to the file system. *)
Inductive effect :=
| NoEffect
| Packed (archive_path : string) (bytes : list byte)
| Unpacked (fs : gmap string file)
| Listed (l : listing).

(** A run of the program: the exit status, whether [print_usage] was
    called, the line sent to the error channel, and the effect. *)
Record run := {
  exit_status : Z;
  usage_printed : bool;
  error_line : option string;
  effect_of : effect
}.

Module Main.
Section World.

Variable clock : nat -> Z.
Variable uninit_header : FileHeader.
Variable uninit_entry : nat -> EntryHeader.

(** The file system as the operations find it: the regular files the walk
    of a directory yields ([None] when the path is not an existing
    directory), whether an output file can be created at a path, and the
    content of the file at a path ([None] when it cannot be opened). *)
Variable walk : string -> option (list source_file).
Variable creatable : string -> bool.
Variable open_file : string -> option (list byte).

Definition usage_run : run :=
  {| exit_status := 1; usage_printed := true; error_line := None;
     effect_of := NoEffect |}.

(** The [catch] clause: ["Error: " << e.what()], status 1. *)
Definition failed (e : error) (eff : effect) : run :=
  {| exit_status := 1; usage_printed := false;
     error_line := Some ("Error: " +:+ what e); effect_of := eff |}.

Definition succeeded (eff : effect) : run :=
  {| exit_status := 0; usage_printed := false; error_line := None;
     effect_of := eff |}.

(** [main]: [argv] holds the program name and its arguments, [fs] is the
    file system [unpack] writes to. *)
Definition main (argv : list string) (fs : gmap string file) : run :=
  let argc := length argv in
  if argc <? 2 then usage_run
  else
    let cmd := nth 1 argv "" in
    if String.eqb cmd "pack" then
      if argc <? 4 then usage_run
      else
        match Archiver.pack clock (walk (nth 2 argv ""))
                (creatable (nth 3 argv "")) with
        | Ok bytes => succeeded (Packed (nth 3 argv "") bytes)
        | Err e => failed e NoEffect
        end
    else if String.eqb cmd "unpack" then
      if argc <? 4 then usage_run
      else
        match Archiver.unpack uninit_header uninit_entry
                (open_file (nth 2 argv "")) (nth 3 argv "") fs with
        | (fs', Ok _) => succeeded (Unpacked fs')
        | (fs', Err e) => failed e (Unpacked fs')
        end
    else if String.eqb cmd "list" && (argc =? 3) then
      match Archiver.list uninit_header uninit_entry
              (open_file (nth 2 argv "")) with
      | Ok l => succeeded (Listed l)
      | Err e => failed e NoEffect
      end
    else usage_run.

End World.
End Main.

(** Files like those of the repository's own tests: [a.txt],
    [subdir/b.txt] and a zero-byte file. *)
Definition test_a : source_file :=
  {| rel_path := "a.txt"; content := list_byte_of_string "hello";
     mtime := 1700000000; mode := 384 |}.
Definition test_b : source_file :=
  {| rel_path := "subdir/b.txt"; content := list_byte_of_string "world";
     mtime := 1700000001; mode := 493 |}.
Definition test_empty : source_file :=
  {| rel_path := "empty.txt"; content := [];
     mtime := 1700000002; mode := 420 |}.
Definition test_files : list source_file := [test_a; test_b; test_empty].

Definition test_clock (k : nat) : Z := (1767225600 + Z.of_nat k)%Z.

Definition zero_header : FileHeader :=
  {| magic := 0; version := 0; entry_count := 0; created_at := 0; reserved := 0 |}.
Definition zero_entry (i : nat) : EntryHeader :=
  {| path_length := 0; content_size := 0; modified_time := 0; checksum := 0;
     permissions := 0 |}.

(** A four-byte file whose CRC-32 is zero. *)
Definition zero_crc_file : source_file :=
  {| rel_path := "z.bin";
     content := [x9d; x0a; xd9; x6d]; (* 9D 0A D9 6D *)
     mtime := 0; mode := 420 |}.

Definition zero_crc_archive : list byte :=
  match Archiver.pack test_clock (Some [zero_crc_file]) true with
  | Ok bs => bs
  | Err _ => []
  end.



Definition test_archive : list byte :=
  match Archiver.pack test_clock (Some test_files) true with
  | Ok bs => bs
  | Err _ => []
  end.

(** The archive of the test with its first byte overwritten. *)
Definition bad_magic_archive : list byte := <[0 := "X"%byte]> test_archive.

(* ===================================================================== *)
(** * Vocabulary of the statements                                        *)
(* ===================================================================== *)

(** A good stream on [bs] whose get position is [p]. *)
Definition at_pos (bs : list byte) (p : nat) : ifstream :=
  {| buf := bs; gpos := p; failbit := false |}.

(** The fields of a header after a trip through memory: each is reduced to
    the width of its type. *)
Definition FileHeader_wrap (h : FileHeader) : FileHeader :=
  {| magic := wrap 32 (magic h);
     version := wrap 16 (version h);
     entry_count := wrap 32 (entry_count h);
     created_at := wrap 64 (created_at h);
     reserved := wrap 32 (reserved h) |}.

Definition EntryHeader_wrap (e : EntryHeader) : EntryHeader :=
  {| path_length := wrap 32 (path_length e);
     content_size := wrap 64 (content_size e);
     modified_time := wrap 64 (modified_time e);
     checksum := wrap 32 (checksum e);
     permissions := wrap 16 (permissions e) |}.

(** A file whose path length fits [uint32_t] and whose size fits the
    signed 64-bit [std::streamoff] that [tellg] returns. *)
Definition fits (f : source_file) : Prop :=
  (Z.of_nat (String.length (rel_path f)) < 2 ^ 32)%Z ∧
  (Z.of_nat (length (content f)) < 2 ^ 63)%Z.

(** The [EntryHeader entry] that [write_entry] fills in for a file. *)
Definition written_header (now : Z) (f : source_file) : EntryHeader :=
  {| path_length := wrap 32 (Z.of_nat (length (list_byte_of_string (rel_path f))));
     content_size := wrap 64 (Z.of_nat (length (content f)));
     modified_time := wrap 64 now;
     checksum := CRC32.calculate (content f);
     permissions := 420 |}.

(** The [FileHeader global_header] that [pack] fills in for [n] files. *)
Definition written_global_header (clock : nat -> Z) (n : nat) : FileHeader :=
  {| magic := KAR_MAGIC;
     version := 1;
     entry_count := wrap 32 (Z.of_nat n);
     created_at := wrap 64 (clock 0%nat);
     reserved := 0 |}.

(** The number of bytes the record of a file takes in the container. *)
Definition entry_size (f : source_file) : nat :=
  sizeof_EntryHeader + String.length (rel_path f) + length (content f).

(** Where the record of the [i]-th file starts, and where its content
    starts, counted from the start of the container. *)
Definition entry_offset (files : list source_file) (i : nat) : nat :=
  sizeof_FileHeader + sum_list_with entry_size (take i files).

Definition content_offset (files : list source_file) (i : nat) (f : source_file)
  : nat :=
  entry_offset files i + sizeof_EntryHeader + String.length (rel_path f).

(** The global header and the [i]-th entry header as a reader finds them
    in the bytes of a container. *)
Definition stored_header (archive : list byte) : FileHeader :=
  FileHeader_of_bytes (take sizeof_FileHeader archive).

Definition stored_entry (archive : list byte) (files : list source_file)
  (i : nat) : EntryHeader :=
  EntryHeader_of_bytes (take sizeof_EntryHeader (drop (entry_offset files i) archive)).

Definition stored_entries (archive : list byte) (files : list source_file)
  : list EntryHeader :=
  (fun i => stored_entry archive files i) <$> seq 0 (length files).

(** The bytes a record takes according to its own header. *)
Definition record_span (e : EntryHeader) : Z :=
  (Z.of_nat sizeof_EntryHeader + path_length e + content_size e)%Z.

Definition sum_Z (l : list Z) : Z := foldr Z.add 0%Z l.

(** The file system after every file of [files] has been written below
    [target_dir] with mode 0644, in order. *)
Definition extract_all (target_dir : string) (files : list source_file)
  (fs : gmap string file) : gmap string file :=
  fold_left
    (fun acc f => write_file (path_join target_dir (rel_path f)) (content f) 420 acc)
    files fs.

(** A directory tree of regular files: the relative paths are pairwise
    distinct and none is absolute. *)
Definition tree (files : list source_file) : Prop :=
  NoDup (rel_path <$> files) ∧
  Forall (fun f => is_absolute (rel_path f) = false) files.
















(** A record of a container, whatever wrote it: the path, the content,
    and the three header fields that the two lengths do not fix. *)
Record entry_record := {
  r_path : string;
  r_content : list byte;
  r_mtime : Z;
  r_checksum : Z;
  r_perms : Z
}.

Definition record_header (r : entry_record) : EntryHeader :=
  {| path_length := Z.of_nat (String.length (r_path r));
     content_size := Z.of_nat (length (r_content r));
     modified_time := r_mtime r;
     checksum := r_checksum r;
     permissions := r_perms r |}.

Definition record_bytes (r : entry_record) : list byte :=
  EntryHeader_bytes (record_header r)
    ++ list_byte_of_string (r_path r) ++ r_content r.

Fixpoint records_bytes (rs : list entry_record) : list byte :=
  match rs with
  | [] => []
  | r :: rest => record_bytes r ++ records_bytes rest
  end.

Definition record_fits (r : entry_record) : Prop :=
  (Z.of_nat (String.length (r_path r)) < 2 ^ 32)%Z ∧
  (Z.of_nat (length (r_content r)) < 2 ^ 63)%Z.

Definition record_size (r : entry_record) : nat :=
  sizeof_EntryHeader + String.length (r_path r) + length (r_content r).

(** What extraction means on records: they are taken in order, each is
    written under the target directory with the stored permission bits if
    the CRC-32 of its content is the stored checksum, and the first one
    that is not stops everything. *)
Definition write_record (target_dir : string) (r : entry_record)
  (fs : gmap string file) : gmap string file :=
  write_file (path_join target_dir (r_path r)) (r_content r)
    (wrap 16 (r_perms r)) fs.

Fixpoint unpack_records (target_dir : string) (rs : list entry_record)
  (fs : gmap string file) : gmap string file * result unit :=
  match rs with
  | [] => (fs, Ok tt)
  | r :: rest =>
      if (CRC32.calculate (r_content r) =? wrap 32 (r_checksum r))%Z
      then unpack_records target_dir rest (write_record target_dir r fs)
      else (fs, Err (CrcMismatch (r_path r) (wrap 32 (r_checksum r))
                       (CRC32.calculate (r_content r))))
  end.


(** The line [list] prints for a record. *)
Definition listed_line (r : entry_record) : string * Z :=
  (r_path r, Z.of_nat (length (r_content r))).

(** The record [write_entry] makes of a file, and the record the
    single-file version makes of it. *)
Definition packed_record (now : Z) (f : source_file) : entry_record :=
  {| r_path := rel_path f; r_content := content f; r_mtime := now;
     r_checksum := CRC32.calculate (content f); r_perms := 420 |}.

Definition legacy_record (now : Z) (f : source_file) : entry_record :=
  {| r_path := rel_path f; r_content := content f; r_mtime := now;
     r_checksum := 0; r_perms := 420 |}.


Fixpoint timed (rec : Z -> source_file -> entry_record) (clock : nat -> Z)
  (k : nat) (files : list source_file) : list entry_record :=
  match files with
  | [] => []
  | f :: rest => rec (clock k) f :: timed rec clock (S k) rest
  end.

(** The positions of a container of [files] that hold a time: [created_at]
    in the global header and [modified_time] in every entry header. *)
Definition time_field (files : list source_file) (k : nat) : Prop :=
  (10 ≤ k < 18) ∨
  exists i, i < length files ∧
    entry_offset files i + 12 ≤ k < entry_offset files i + 20.

(* ===================================================================== *)
(** * Facts about bytes and little-endian images                          *)
(* ===================================================================== *)

Section Bytes.
Local Open Scope Z_scope.

Lemma Z_of_byte_range b : 0 <= Z_of_byte b < 256.
Proof.
  unfold Z_of_byte. pose proof (Byte.to_N_bounded b). lia.
Qed.

Lemma Z_of_byte_of_Z z : Z_of_byte (byte_of_Z z) = z mod 256.
Proof.
  unfold Z_of_byte, byte_of_Z.
  assert (Hm : 0 <= z mod 256 < 256) by (apply Z.mod_pos_bound; lia).
  destruct (Byte.of_N (Z.to_N (z mod 256))) as [b|] eqn:E.
  - apply Byte.to_of_N in E. rewrite E. lia.
  - apply Byte.of_N_None_iff in E. lia.
Qed.

Lemma byte_of_Z_of_byte b : byte_of_Z (Z_of_byte b) = b.
Proof.
  unfold byte_of_Z. rewrite Z.mod_small by apply Z_of_byte_range.
  unfold Z_of_byte. rewrite N2Z.id, Byte.of_to_N. reflexivity.
Qed.

Lemma Z_of_byte_inj b b' : Z_of_byte b = Z_of_byte b' -> b = b'.
Proof.
  intros H. rewrite <- (byte_of_Z_of_byte b), <- (byte_of_Z_of_byte b').
  by rewrite H.
Qed.

Lemma length_le_bytes n z : length (le_bytes n z) = n.
Proof. revert z. induction n as [|n IH]; intros z; simpl; [done|]. by rewrite IH. Qed.

Lemma le_value_le_bytes n z :
  le_value (le_bytes n z) = z mod 2 ^ (8 * Z.of_nat n).
Proof.
  revert z. induction n as [|n IH]; intros z.
  - simpl. by rewrite Z.mod_1_r.
  - cbn [le_bytes le_value]. rewrite IH, Z_of_byte_of_Z.
    rewrite Z.shiftr_div_pow2 by lia.
    replace (8 * Z.of_nat (S n)) with (8 + 8 * Z.of_nat n) by lia.
    rewrite Z.pow_add_r by lia. change (2 ^ 8) with 256.
    rewrite Z.rem_mul_r by lia. reflexivity.
Qed.

Lemma le_value_range bs : 0 <= le_value bs < 2 ^ (8 * Z.of_nat (length bs)).
Proof.
  induction bs as [|b bs IH].
  - simpl. lia.
  - cbn [le_value length]. pose proof (Z_of_byte_range b).
    replace (8 * Z.of_nat (S (length bs))) with (8 + 8 * Z.of_nat (length bs)) by lia.
    rewrite Z.pow_add_r by lia. change (2 ^ 8) with 256. nia.
Qed.

Lemma byte_of_Z_mod z : byte_of_Z (z mod 256) = byte_of_Z z.
Proof. unfold byte_of_Z. by rewrite Zmod_mod. Qed.

Lemma le_bytes_le_value bs : le_bytes (length bs) (le_value bs) = bs.
Proof.
  induction bs as [|b bs IH]; [done|].
  cbn [length le_bytes le_value]. pose proof (Z_of_byte_range b).
  f_equal.
  - rewrite <- byte_of_Z_mod, Z.mul_comm, Z_mod_plus_full.
    rewrite Z.mod_small by done. apply byte_of_Z_of_byte.
  - rewrite Z.shiftr_div_pow2 by lia. change (2 ^ 8) with 256.
    rewrite Z.add_comm, Z.mul_comm, Z.div_add_l by lia.
    rewrite Z.div_small by done. by rewrite Z.add_0_r.
Qed.

End Bytes.

(* ===================================================================== *)
(** * Facts about the checksum engine                                     *)
(* ===================================================================== *)

Section CRC32_facts.
Local Open Scope Z_scope.
Import CRC32.

Ltac bitwise :=
  apply Z.bits_inj'; intros ? ?;
  repeat rewrite ?Z.lxor_spec, ?Z.bits_0;
  repeat match goal with
         | |- context [Z.testbit ?a ?n] => destruct (Z.testbit a n)
         end; reflexivity.

Lemma lxor_range n a b :
  0 <= n -> 0 <= a < 2 ^ n -> 0 <= b < 2 ^ n -> 0 <= Z.lxor a b < 2 ^ n.
Proof.
  intros Hn Ha Hb.
  assert (E : Z.lxor a b = Z.lxor a b mod 2 ^ n).
  { rewrite <- Z.land_ones by done. apply Z.bits_inj'. intros m Hm.
    rewrite Z.land_spec, Z.lxor_spec.
    destruct (Z.lt_ge_cases m n) as [Hlt|Hge].
    - rewrite Z.ones_spec_low by lia. by rewrite andb_true_r.
    - rewrite Z.ones_spec_high by lia. rewrite andb_false_r.
      rewrite <- (Z.mod_small a (2 ^ n)), <- (Z.mod_small b (2 ^ n)) by done.
      by rewrite !Z.mod_pow2_bits_high by lia. }
  rewrite E. apply Z.mod_pos_bound. lia.
Qed.

Lemma shift_xor_alt x :
  shift_xor x = Z.lxor (Z.shiftr x 1) (if Z.odd x then POLYNOMIAL else 0).
Proof.
  unfold shift_xor. change 1 with (Z.ones 1) at 1.
  rewrite Z.land_ones by lia. change (2 ^ 1) with 2. rewrite Zmod_odd.
  destruct (Z.odd x); simpl; [done|]. by rewrite Z.lxor_0_r.
Qed.

Lemma odd_lxor a b : Z.odd (Z.lxor a b) = xorb (Z.odd a) (Z.odd b).
Proof. rewrite <- !Z.bit0_odd. apply Z.lxor_spec. Qed.

(** The register update is linear over XOR. *)
Lemma shift_xor_lxor a b :
  shift_xor (Z.lxor a b) = Z.lxor (shift_xor a) (shift_xor b).
Proof.
  rewrite !shift_xor_alt, Z.shiftr_lxor, odd_lxor.
  destruct (Z.odd a), (Z.odd b); cbn [xorb]; bitwise.
Qed.

Lemma iter_shift_xor_lxor n a b :
  Nat.iter n shift_xor (Z.lxor a b) =
  Z.lxor (Nat.iter n shift_xor a) (Nat.iter n shift_xor b).
Proof.
  induction n as [|n IH]; [done|].
  by rewrite !Nat.iter_succ, IH, shift_xor_lxor.
Qed.

Lemma iter_shift_xor_shiftl k h :
  Nat.iter k shift_xor (Z.shiftl h (Z.of_nat k)) = h.
Proof.
  revert h. induction k as [|k IH]; intros h.
  - simpl. apply Z.shiftl_0_r.
  - rewrite Nat.iter_succ_r, shift_xor_alt.
    rewrite <- Z.bit0_odd, Z.shiftl_spec_low by lia.
    rewrite Z.lxor_0_r, Z.shiftr_shiftl_l by lia.
    replace (Z.of_nat (S k) - 1) with (Z.of_nat k) by lia. apply IH.
Qed.

Lemma table_lookup i :
  0 <= i < 256 -> nth (Z.to_nat i) table_ 0 = Nat.iter 8 shift_xor i.
Proof.
  intros Hi. unfold table_, init_table.
  change 0 with ((fun j => Nat.iter 8 shift_xor (Z.of_nat j)) 0%nat) at 1.
  rewrite map_nth, seq_nth by lia. simpl Nat.add. by rewrite Z2Nat.id by lia.
Qed.

Lemma split_low_byte v :
  v = Z.lxor (Z.shiftl (Z.shiftr v 8) 8) (Z.land v 255).
Proof.
  apply Z.bits_inj'. intros n Hn.
  rewrite Z.lxor_spec, Z.land_spec. change 255 with (Z.ones 8).
  destruct (Z.lt_ge_cases n 8) as [Hlt|Hge].
  - rewrite Z.shiftl_spec_low, Z.ones_spec_low by lia.
    by rewrite andb_true_r.
  - rewrite Z.shiftl_spec, Z.shiftr_spec, Z.ones_spec_high by lia.
    rewrite andb_false_r, xorb_false_r. f_equal. lia.
Qed.

(** One table lookup does the work of eight one-bit divisions. *)
Lemma step_bitwise x b : step x b = bitwise_step x b.
Proof.
  unfold step, bitwise_step. set (v := Z.lxor x (Z_of_byte b)).
  assert (Hlo : 0 <= Z.land v 255 < 256).
  { change 255 with (Z.ones 8). rewrite Z.land_ones by lia.
    apply Z.mod_pos_bound. lia. }
  pose proof (iter_shift_xor_shiftl 8 (Z.shiftr v 8)) as H8.
  change (Z.of_nat 8) with 8 in H8.
  rewrite table_lookup by done.
  rewrite (split_low_byte v) at 2.
  rewrite iter_shift_xor_lxor, H8.
  f_equal. unfold v. rewrite Z.shiftr_lxor.
  pose proof (Z_of_byte_range b).
  rewrite (Z.shiftr_div_pow2 (Z_of_byte b)) by lia.
  change (2 ^ 8) with 256. rewrite (Z.div_small (Z_of_byte b)) by done.
  by rewrite Z.lxor_0_r.
Qed.

Lemma shift_xor_range x : 0 <= x < 2 ^ 32 -> 0 <= shift_xor x < 2 ^ 32.
Proof.
  intros Hx. rewrite shift_xor_alt. apply lxor_range; [lia| |].
  - rewrite Z.shiftr_div_pow2 by lia. change (2 ^ 1) with 2.
    split; [apply Z.div_pos; lia|].
    apply Z.div_lt_upper_bound; lia.
  - destruct (Z.odd x); unfold POLYNOMIAL; lia.
Qed.

Lemma iter_shift_xor_range n x :
  0 <= x < 2 ^ 32 -> 0 <= Nat.iter n shift_xor x < 2 ^ 32.
Proof.
  intros Hx. induction n as [|n IH]; [done|].
  rewrite Nat.iter_succ. by apply shift_xor_range.
Qed.

Lemma byte_32 b : 0 <= Z_of_byte b < 2 ^ 32.
Proof. pose proof (Z_of_byte_range b). lia. Qed.

Lemma step_range x b : 0 <= x < 2 ^ 32 -> 0 <= step x b < 2 ^ 32.
Proof.
  intros Hx. rewrite step_bitwise. apply iter_shift_xor_range.
  apply lxor_range; [lia|done|apply byte_32].
Qed.

Lemma fold_step_range data x :
  0 <= x < 2 ^ 32 -> 0 <= fold_left step data x < 2 ^ 32.
Proof.
  revert x. induction data as [|b data IH]; intros x Hx; [done|].
  simpl. apply IH. by apply step_range.
Qed.

Lemma calculate_range data : 0 <= calculate data < 2 ^ 32.
Proof.
  unfold calculate. apply lxor_range; [lia| |lia].
  apply fold_step_range. lia.
Qed.

Lemma lxor_cancel_r a b c : Z.lxor a c = Z.lxor b c -> a = b.
Proof.
  intros H. apply (f_equal (fun z => Z.lxor z c)) in H.
  by rewrite !Z.lxor_assoc, Z.lxor_nilpotent, !Z.lxor_0_r in H.
Qed.

Lemma lxor_cancel_l a b c : Z.lxor c a = Z.lxor c b -> a = b.
Proof. rewrite !(Z.lxor_comm c). apply lxor_cancel_r. Qed.

(** Bit 31 of the updated register tells whether the low bit was set, so
    the update loses nothing on 32-bit values. *)
Lemma shift_xor_bit31 x :
  0 <= x < 2 ^ 32 -> Z.testbit (shift_xor x) 31 = Z.odd x.
Proof.
  intros Hx. rewrite shift_xor_alt, Z.lxor_spec, Z.shiftr_spec by lia.
  rewrite <- (Z.mod_small x (2 ^ 32)) at 1 by done.
  rewrite Z.mod_pow2_bits_high by lia.
  by destruct (Z.odd x).
Qed.

Lemma shift_xor_inj x y :
  0 <= x < 2 ^ 32 -> 0 <= y < 2 ^ 32 -> shift_xor x = shift_xor y -> x = y.
Proof.
  intros Hx Hy E.
  assert (Ho : Z.odd x = Z.odd y).
  { rewrite <- (shift_xor_bit31 x), <- (shift_xor_bit31 y) by done.
    by rewrite E. }
  rewrite !shift_xor_alt, Ho in E. apply lxor_cancel_r in E.
  rewrite (Z.div2_odd x), (Z.div2_odd y), !Z.div2_spec, E, Ho. done.
Qed.

Lemma iter_shift_xor_inj n x y :
  0 <= x < 2 ^ 32 -> 0 <= y < 2 ^ 32 ->
  Nat.iter n shift_xor x = Nat.iter n shift_xor y -> x = y.
Proof.
  intros Hx Hy. induction n as [|n IH]; [done|].
  rewrite !Nat.iter_succ. intros E. apply IH.
  apply shift_xor_inj; [by apply iter_shift_xor_range..|done].
Qed.

(** For a fixed byte, [step] is injective on 32-bit registers. *)
Lemma step_inj_register x y b :
  0 <= x < 2 ^ 32 -> 0 <= y < 2 ^ 32 -> step x b = step y b -> x = y.
Proof.
  intros Hx Hy. rewrite !step_bitwise. unfold bitwise_step. intros E.
  apply iter_shift_xor_inj in E;
    [|apply lxor_range; [lia|done|apply byte_32]..].
  by apply lxor_cancel_r in E.
Qed.

(** For a fixed register, [step] is injective in the byte. *)
Lemma step_inj_byte x b b' :
  0 <= x < 2 ^ 32 -> step x b = step x b' -> b = b'.
Proof.
  intros Hx. rewrite !step_bitwise. unfold bitwise_step. intros E.
  apply iter_shift_xor_inj in E;
    [|apply lxor_range; [lia|done|apply byte_32]..].
  apply lxor_cancel_l in E. by apply Z_of_byte_inj.
Qed.

Lemma fold_step_inj data x y :
  0 <= x < 2 ^ 32 -> 0 <= y < 2 ^ 32 ->
  fold_left step data x = fold_left step data y -> x = y.
Proof.
  revert x y. induction data as [|b data IH]; intros x y Hx Hy E; [done|].
  simpl in E. apply IH in E; [|by apply step_range..].
  by apply step_inj_register in E.
Qed.

(** Changing one byte of a buffer changes its checksum. *)
Lemma calculate_insert_ne (data : list byte) (j : nat) (old b : byte) :
  data !! j = Some old -> b <> old ->
  calculate (<[j := b]> data) <> calculate data.
Proof.
  intros Hj Hb E. unfold calculate in E. apply lxor_cancel_r in E.
  assert (Hlt : (j < length data)%nat) by (by eapply lookup_lt_Some).
  rewrite <- (take_drop_middle data j old Hj) in E at 2.
  rewrite insert_take_drop in E by done.
  rewrite !fold_left_app in E. simpl in E.
  apply fold_step_inj in E;
    [|apply step_range, fold_step_range; lia..].
  apply step_inj_byte in E; [done|]. apply fold_step_range. lia.
Qed.

Lemma fold_step_bitwise data x :
  fold_left step data x = fold_left bitwise_step data x.
Proof.
  revert x. induction data as [|b data IH]; intros x; [done|].
  simpl. by rewrite IH, step_bitwise.
Qed.

End CRC32_facts.

(* ===================================================================== *)
(** * Facts about the format and the streams                              *)
(* ===================================================================== *)

Section Format_facts.

Lemma length_list_byte_of_string s :
  length (list_byte_of_string s) = String.length s.
Proof.
  unfold list_byte_of_string. rewrite length_map.
  induction s as [|c s IH]; simpl; [done|]. by rewrite IH.
Qed.

Lemma length_FileHeader_bytes h :
  length (FileHeader_bytes h) = sizeof_FileHeader.
Proof. unfold FileHeader_bytes. by rewrite !length_app, !length_le_bytes. Qed.

Lemma length_EntryHeader_bytes e :
  length (EntryHeader_bytes e) = sizeof_EntryHeader.
Proof. unfold EntryHeader_bytes. by rewrite !length_app, !length_le_bytes. Qed.

Lemma field_skip n off len (pre l : list byte) :
  length pre = n -> field (n + off) len (pre ++ l) = field off len l.
Proof. intros <-. unfold field. by rewrite drop_app_add. Qed.

Lemma field_here n z (l : list byte) :
  field 0 n (le_bytes n z ++ l) = (z mod 2 ^ (8 * Z.of_nat n))%Z.
Proof.
  unfold field. rewrite drop_0, take_app_length' by (by rewrite length_le_bytes).
  apply le_value_le_bytes.
Qed.

Lemma field_last n z :
  field 0 n (le_bytes n z) = (z mod 2 ^ (8 * Z.of_nat n))%Z.
Proof. rewrite <- (app_nil_r (le_bytes n z)). apply field_here. Qed.

Lemma field_take off len n (mem : list byte) :
  off + len ≤ n -> field off len (take n mem) = field off len mem.
Proof.
  intros H. unfold field.
  replace n with (off + (n - off)) by lia.
  rewrite <- take_drop_commute, take_take. f_equal. f_equal. lia.
Qed.

Ltac skip n off :=
  etransitivity; [apply (field_skip n off); apply length_le_bytes|].

Lemma FileHeader_of_bytes_bytes h :
  FileHeader_of_bytes (FileHeader_bytes h) = FileHeader_wrap h.
Proof.
  unfold FileHeader_of_bytes, FileHeader_bytes, FileHeader_wrap, wrap.
  f_equal.
  - apply field_here.
  - skip 4 0. apply field_here.
  - skip 4 2. skip 2 0. apply field_here.
  - skip 4 6. skip 2 4. skip 4 0. apply field_here.
  - skip 4 14. skip 2 12. skip 4 8. skip 8 0. apply field_last.
Qed.

Lemma EntryHeader_of_bytes_bytes e :
  EntryHeader_of_bytes (EntryHeader_bytes e) = EntryHeader_wrap e.
Proof.
  unfold EntryHeader_of_bytes, EntryHeader_bytes, EntryHeader_wrap, wrap.
  f_equal.
  - apply field_here.
  - skip 4 0. apply field_here.
  - skip 4 8. skip 8 0. apply field_here.
  - skip 4 16. skip 8 8. skip 8 0. apply field_here.
  - skip 4 20. skip 8 12. skip 8 4. skip 4 0. apply field_last.
Qed.

Lemma FileHeader_of_bytes_take mem :
  FileHeader_of_bytes (take sizeof_FileHeader mem) = FileHeader_of_bytes mem.
Proof.
  unfold FileHeader_of_bytes, sizeof_FileHeader.
  f_equal; apply field_take; simpl; lia.
Qed.

Lemma read_exact bs p (chunk rest old : list byte) :
  drop p bs = chunk ++ rest ->
  read (at_pos bs p) (length chunk) old = (chunk, at_pos bs (p + length chunk)).
Proof.
  intros H. unfold read, at_pos. simpl. rewrite H, length_app.
  case_decide; [|lia]. by rewrite take_app_length.
Qed.

Lemma drop_advance (bs : list byte) p chunk rest :
  drop p bs = chunk ++ rest -> drop (p + length chunk) bs = rest.
Proof. intros H. by rewrite <- drop_drop, H, drop_app_length. Qed.

Lemma read_failed s n old :
  failbit s = true -> read s n old = (old, s).
Proof. intros H. unfold read. by rewrite H. Qed.

End Format_facts.

(* ===================================================================== *)
(** * Facts about the writer and the reader                               *)
(* ===================================================================== *)

Section Archiver_facts.
Variable clock : nat -> Z.
Variable uninit_header : FileHeader.
Variable uninit_entry : nat -> EntryHeader.

Lemma read_chunk bs p n (chunk rest old : list byte) :
  length chunk = n -> drop p bs = chunk ++ rest ->
  read (at_pos bs p) n old = (chunk, at_pos bs (p + n)).
Proof. intros <-. apply read_exact. Qed.

Lemma write_entry_eq now f :
  Archiver.write_entry now f =
  EntryHeader_bytes (written_header now f)
    ++ list_byte_of_string (rel_path f) ++ content f.
Proof. reflexivity. Qed.

Lemma length_write_entry now f :
  length (Archiver.write_entry now f) = entry_size f.
Proof.
  rewrite write_entry_eq, !length_app, length_EntryHeader_bytes,
    length_list_byte_of_string.
  unfold entry_size. lia.
Qed.

Lemma length_write_entries files k :
  length (Archiver.write_entries clock k files) = sum_list_with entry_size files.
Proof.
  revert k. induction files as [|f files IH]; intros k; [done|].
  cbn [Archiver.write_entries sum_list_with].
  by rewrite length_app, length_write_entry, IH.
Qed.

Lemma write_entries_app l1 l2 k :
  Archiver.write_entries clock k (l1 ++ l2) =
  Archiver.write_entries clock k l1
    ++ Archiver.write_entries clock (k + length l1) l2.
Proof.
  revert k. induction l1 as [|f l1 IH]; intros k.
  - simpl. by rewrite Nat.add_0_r.
  - cbn [app Archiver.write_entries length]. rewrite IH, <- app_assoc.
    do 3 f_equal. lia.
Qed.

Lemma wrap_small bits z :
  (0 <= z < 2 ^ bits)%Z -> wrap bits z = z.
Proof. intros H. unfold wrap. by apply Z.mod_small. Qed.

Lemma wrap_wrap bits z : wrap bits (wrap bits z) = wrap bits z.
Proof.
  unfold wrap. apply Zmod_mod.
Qed.

(** One iteration of the loop of [unpack] on a stream positioned at a
    record whose two length fields bound its two regions. *)
Lemma unpack_loop_record n i bs p e pth c rest t fs :
  drop p bs = EntryHeader_bytes e ++ pth ++ c ++ rest ->
  wrap 32 (path_length e) = Z.of_nat (length pth) ->
  wrap 64 (content_size e) = Z.of_nat (length c) ->
  Archiver.unpack_loop uninit_entry (S n) i (at_pos bs p) t fs =
  if negb (CRC32.calculate c =? wrap 32 (checksum e))%Z
  then (fs, Err (CrcMismatch (string_of_list_byte pth)
                   (wrap 32 (checksum e)) (CRC32.calculate c)))
  else Archiver.unpack_loop uninit_entry n (S i)
         (at_pos bs (p + sizeof_EntryHeader + length pth + length c)) t
         (write_file (path_join t (string_of_list_byte pth)) c
            (wrap 16 (permissions e)) fs).
Proof.
  intros Hd Hp Hc. cbn [Archiver.unpack_loop].
  pose proof (length_EntryHeader_bytes e) as Le.
  rewrite (read_chunk bs p _ (EntryHeader_bytes e) (pth ++ c ++ rest)) by done.
  rewrite EntryHeader_of_bytes_bytes.
  cbn [path_length content_size checksum permissions EntryHeader_wrap].
  rewrite Hp, Hc, !Nat2Z.id.
  assert (Hd1 : drop (p + sizeof_EntryHeader) bs = pth ++ c ++ rest).
  { rewrite <- Le. by eapply drop_advance. }
  rewrite (read_chunk _ _ _ pth (c ++ rest)) by done.
  assert (Hd2 : drop (p + sizeof_EntryHeader + length pth) bs = c ++ rest)
    by (by eapply drop_advance).
  rewrite (read_chunk _ _ _ c rest) by done.
  reflexivity.
Qed.

Lemma drop_record (bs : list byte) p e pth c rest :
  drop p bs = EntryHeader_bytes e ++ pth ++ c ++ rest ->
  drop (p + sizeof_EntryHeader + length pth + length c) bs = rest.
Proof.
  intros Hd. rewrite <- (length_EntryHeader_bytes e).
  eapply drop_advance, drop_advance, drop_advance, Hd.
Qed.

Lemma written_header_lengths now f :
  fits f ->
  wrap 32 (path_length (written_header now f)) =
    Z.of_nat (length (list_byte_of_string (rel_path f))) ∧
  wrap 64 (content_size (written_header now f)) =
    Z.of_nat (length (content f)).
Proof.
  intros [Hp Hc]. cbn [written_header path_length content_size].
  rewrite !wrap_wrap, length_list_byte_of_string.
  split; apply wrap_small; lia.
Qed.

(** The loop of [unpack] over the records [pack] wrote for [files]: every
    one verifies and is written out, and the loop goes on with what
    follows. *)
Lemma unpack_loop_entries files :
  forall k i bs p rest m t fs,
  Forall fits files ->
  drop p bs = Archiver.write_entries clock k files ++ rest ->
  Archiver.unpack_loop uninit_entry (length files + m) i (at_pos bs p) t fs =
  Archiver.unpack_loop uninit_entry m (i + length files)
    (at_pos bs (p + sum_list_with entry_size files)) t
    (extract_all t files fs).
Proof.
  induction files as [|f files IH]; intros k i bs p rest m t fs Hfits Hd.
  - simpl. by rewrite !Nat.add_0_r.
  - apply Forall_cons in Hfits as [Hf Hfits].
    cbn [Archiver.write_entries] in Hd.
    rewrite write_entry_eq, <- !app_assoc in Hd.
    destruct (written_header_lengths (clock k) f Hf) as [Hp Hc].
    cbn [length Nat.add].
    rewrite (unpack_loop_record _ _ _ _ _ _ _ _ _ _ Hd Hp Hc).
    cbn [written_header checksum permissions].
    rewrite (wrap_small 32 (CRC32.calculate _)) by apply calculate_range.
    rewrite Z.eqb_refl. cbn [negb].
    rewrite string_of_list_byte_of_string.
    apply drop_record in Hd.
    rewrite (IH _ _ _ _ _ _ _ _ Hfits Hd).
    cbn [sum_list_with extract_all fold_left].
    rewrite length_list_byte_of_string. unfold entry_size.
    change (wrap 16 420) with 420%Z.
    f_equal; [lia|f_equal; lia].
Qed.

(** [unpack] up to the loop, on a stream that starts with a whole global
    header. *)
Lemma unpack_header bs gh body t fs :
  bs = FileHeader_bytes gh ++ body ->
  Archiver.unpack uninit_header uninit_entry (Some bs) t fs =
  if negb (wrap 32 (magic gh) =? KAR_MAGIC)%Z then (fs, Err WrongMagic)
  else Archiver.unpack_loop uninit_entry
         (Z.to_nat (wrap 32 (entry_count gh))) 0
         (at_pos bs sizeof_FileHeader) t fs.
Proof.
  intros ->. unfold Archiver.unpack. cbn [ifstream_open failbit].
  fold (at_pos (FileHeader_bytes gh ++ body) 0).
  rewrite (read_chunk _ 0 _ (FileHeader_bytes gh) body)
    by (by rewrite ?length_FileHeader_bytes, ?drop_0).
  by rewrite FileHeader_of_bytes_bytes.
Qed.

Lemma pack_inv files archive :
  Archiver.pack clock (Some files) true = Ok archive ->
  archive = FileHeader_bytes (written_global_header clock (length files))
              ++ Archiver.write_entries clock 1 files.
Proof. unfold Archiver.pack. cbn [negb]. by intros [= <-]. Qed.

(** The container around the record of its [i]-th file. *)
Lemma pack_split files archive i f :
  Archiver.pack clock (Some files) true = Ok archive ->
  files !! i = Some f ->
  exists front back,
    archive = front
      ++ EntryHeader_bytes (written_header (clock (S i)) f)
      ++ list_byte_of_string (rel_path f) ++ content f ++ back ∧
    front = FileHeader_bytes (written_global_header clock (length files))
              ++ Archiver.write_entries clock 1 (take i files) ∧
    back = Archiver.write_entries clock (S (S i)) (drop (S i) files) ∧
    length front = entry_offset files i.
Proof.
  intros Hpack Hi. apply pack_inv in Hpack.
  assert (Hlen : i < length files) by (by eapply lookup_lt_Some).
  eexists _, _. split; [|split; [reflexivity|split; [reflexivity|]]].
  - rewrite Hpack at 1. rewrite <- (take_drop_middle files i f Hi) at 2.
    rewrite write_entries_app. cbn [Archiver.write_entries].
    rewrite write_entry_eq, length_take_le by lia.
    by rewrite <- !app_assoc.
  - rewrite length_app, length_FileHeader_bytes, length_write_entries.
    reflexivity.
Qed.

Lemma extract_all_cons t f files fs :
  extract_all t (f :: files) fs =
  extract_all t files
    (write_file (path_join t (rel_path f)) (content f) 420 fs).
Proof. reflexivity. Qed.

Lemma extract_all_lookup_other t files fs q :
  (forall f, f ∈ files -> q ≠ path_join t (rel_path f)) ->
  extract_all t files fs !! q = fs !! q.
Proof.
  revert fs. induction files as [|g files IH]; intros fs H; [done|].
  rewrite extract_all_cons, IH.
  - unfold write_file. apply lookup_insert_ne.
    intros E. eapply H; [|by symmetry]. by left.
  - intros f Hf. apply H. by right.
Qed.

Lemma extract_all_lookup t files fs f :
  NoDup ((fun g => path_join t (rel_path g)) <$> files) ->
  f ∈ files ->
  extract_all t files fs !! path_join t (rel_path f) =
  Some {| bytes := content f; perms := 420 |}.
Proof.
  revert fs. induction files as [|g files IH]; intros fs Hnd Hf.
  - by apply elem_of_nil in Hf.
  - rewrite fmap_cons in Hnd. apply NoDup_cons in Hnd as [Hg Hnd].
    rewrite extract_all_cons.
    destruct (decide (path_join t (rel_path f) = path_join t (rel_path g)))
      as [E|E].
    + rewrite extract_all_lookup_other.
      * rewrite E. unfold write_file. rewrite lookup_insert_eq.
        apply elem_of_cons in Hf as [->|Hf]; [done|].
        exfalso. apply Hg. rewrite <- E.
        by apply (list_elem_of_fmap_2 (fun g => path_join t (rel_path g))).
      * intros h Hh E'. apply Hg. rewrite <- E, E'.
        by apply (list_elem_of_fmap_2 (fun g => path_join t (rel_path g))).
    + apply elem_of_cons in Hf as [->|Hf]; [done|]. by apply IH.
Qed.

Lemma path_join_inj t p q :
  is_absolute p = false -> is_absolute q = false ->
  path_join t p = path_join t q -> p = q.
Proof.
  unfold path_join. intros -> ->.
  destruct (has_filename t); intros E.
  - by do 2 apply String.app_inj in E.
  - by apply String.app_inj in E.
Qed.

Lemma tree_keys t files :
  tree files -> NoDup ((fun g => path_join t (rel_path g)) <$> files).
Proof.
  intros [Hnd Hrel].
  change (NoDup ((path_join t ∘ rel_path) <$> files)).
  rewrite list_fmap_compose. apply NoDup_fmap_2_strong; [|done].
  intros p q [f [-> Hf]]%list_elem_of_fmap [g [-> Hg]]%list_elem_of_fmap.
  rewrite Forall_forall in Hrel. apply path_join_inj; by apply Hrel.
Qed.

(** [unpack] on the container [pack] made of [files]. *)
Lemma unpack_pack files archive t fs :
  Archiver.pack clock (Some files) true = Ok archive ->
  (Z.of_nat (length files) < 2 ^ 32)%Z ->
  Forall fits files ->
  Archiver.unpack uninit_header uninit_entry (Some archive) t fs =
  (extract_all t files fs, Ok tt).
Proof.
  intros Hpack Hn Hfits. apply pack_inv in Hpack.
  rewrite (unpack_header _ _ _ _ _ Hpack).
  cbn [written_global_header magic entry_count].
  change (negb (wrap 32 KAR_MAGIC =? KAR_MAGIC)%Z) with false. cbv iota.
  rewrite wrap_wrap, wrap_small, Nat2Z.id by lia.
  assert (Hd : drop sizeof_FileHeader archive =
               Archiver.write_entries clock 1 files ++ []).
  { rewrite Hpack, app_nil_r.
    apply drop_app_length'. by rewrite length_FileHeader_bytes. }
  pose proof (unpack_loop_entries files 1 0 archive sizeof_FileHeader [] 0
                t fs Hfits Hd) as H.
  rewrite Nat.add_0_r in H. by rewrite H.
Qed.

(** The header a reader finds at the offset of the [i]-th record is the
    one [write_entry] filled in, each field at the width of its type. *)
Lemma stored_entry_written files archive i f :
  Archiver.pack clock (Some files) true = Ok archive ->
  files !! i = Some f ->
  stored_entry archive files i = EntryHeader_wrap (written_header (clock (S i)) f).
Proof.
  intros Hpack Hi.
  destruct (pack_split files archive i f Hpack Hi)
    as (front & back & Ha & _ & _ & Hlen).
  unfold stored_entry. rewrite <- Hlen, Ha, drop_app_length.
  rewrite take_app_length' by (by rewrite length_EntryHeader_bytes).
  apply EntryHeader_of_bytes_bytes.
Qed.

Lemma stored_header_written files archive :
  Archiver.pack clock (Some files) true = Ok archive ->
  stored_header archive =
  FileHeader_wrap (written_global_header clock (length files)).
Proof.
  intros Hpack. apply pack_inv in Hpack. unfold stored_header.
  rewrite Hpack, take_app_length' by (by rewrite length_FileHeader_bytes).
  apply FileHeader_of_bytes_bytes.
Qed.

Lemma write_entries_same_content files files' k :
  Forall2 (fun g g' => rel_path g = rel_path g' ∧ content g = content g')
    files files' ->
  Archiver.write_entries clock k files = Archiver.write_entries clock k files'.
Proof.
  intros H. revert k.
  induction H as [|g g' l l' [Hp Hc] _ IH]; intros k; [done|].
  cbn [Archiver.write_entries]. rewrite IH. f_equal.
  unfold Archiver.write_entry. by rewrite Hp, Hc.
Qed.

Lemma list_always_returns archive_file :
  exists l, Archiver.list uninit_header uninit_entry archive_file = Ok l.
Proof.
  unfold Archiver.list.
  destruct (read _ _ _) as [mem s]. by eexists.
Qed.

Lemma unpack_absent t fs :
  Archiver.unpack uninit_header uninit_entry None t fs =
  (fs, Err CannotOpenArchive).
Proof. reflexivity. Qed.

(** The only error the loop of [unpack] raises is the CRC mismatch, and it
    carries two different values. *)
Lemma unpack_loop_errors n :
  forall i s t fs e,
  (Archiver.unpack_loop uninit_entry n i s t fs).2 = Err e ->
  exists p x y, e = CrcMismatch p x y ∧ x ≠ y.
Proof.
  induction n as [|n IH]; intros i s t fs e H; cbn [Archiver.unpack_loop] in H.
  - discriminate.
  - repeat match type of H with
           | context [match ?r with pair _ _ => _ end] => destruct r
           end.
    match type of H with
    | context [negb (?a =? ?b)%Z] => destruct (Z.eqb_spec a b) as [E|E]
    end; cbn [negb] in H.
    + by eapply IH.
    + cbn [snd] in H. injection H as <-. eexists _, _, _. split; [done|].
      intros E'. apply E. by rewrite <- E'.
Qed.

(** A stream that does not start with the four bytes of the magic number
    is refused by [unpack] before any entry is read, also when it ends
    before the end of the header. *)
Lemma unpack_rejects_bad_magic bs t fs :
  4 ≤ length bs ->
  take 4 bs ≠ le_bytes 4 KAR_MAGIC ->
  Archiver.unpack uninit_header uninit_entry (Some bs) t fs = (fs, Err WrongMagic).
Proof.
  intros Hlen Hne. unfold Archiver.unpack. cbn [ifstream_open failbit].
  assert (Hm : forall mem, take 4 mem = take 4 bs ->
            (magic (FileHeader_of_bytes mem) =? KAR_MAGIC)%Z = false).
  { intros mem Hmem. apply Z.eqb_neq. intros E. apply Hne.
    cbn [FileHeader_of_bytes magic] in E. unfold field in E.
    rewrite drop_0, Hmem in E.
    rewrite <- (le_bytes_le_value (take 4 bs)), E.
    by rewrite length_take_le by lia. }
  unfold read. cbn [failbit gpos buf]. rewrite drop_0.
  case_decide.
  - rewrite Hm; [done|]. rewrite take_take. f_equal.
  - rewrite Hm; [done|]. by rewrite take_app_le by lia.
Qed.

Lemma seekg_cur_forward bs p n :
  (Z.of_nat n < 2 ^ 63)%Z ->
  seekg_cur (at_pos bs p) (Z.of_nat n) = at_pos bs (p + n).
Proof.
  intros Hn. unfold seekg_cur, at_pos. cbn [failbit gpos buf].
  destruct (Z.ltb_spec (Z.of_nat n) (2 ^ 63)) as [_|?]; [|lia].
  destruct (Z.ltb_spec (Z.of_nat p + Z.of_nat n) 0) as [?|_]; [lia|].
  f_equal. lia.
Qed.

(** The loop of [list] over the records [pack] wrote for [files]. *)
Lemma list_loop_entries files :
  forall k i bs p rest m,
  Forall fits files ->
  drop p bs = Archiver.write_entries clock k files ++ rest ->
  Archiver.list_loop uninit_entry (length files + m) i (at_pos bs p) =
  ((fun f => (rel_path f, Z.of_nat (length (content f)))) <$> files)
    ++ Archiver.list_loop uninit_entry m (i + length files)
         (at_pos bs (p + sum_list_with entry_size files)).
Proof.
  induction files as [|f files IH]; intros k i bs p rest m Hfits Hd.
  - simpl. by rewrite !Nat.add_0_r.
  - apply Forall_cons in Hfits as [Hf Hfits].
    cbn [Archiver.write_entries] in Hd.
    rewrite write_entry_eq, <- !app_assoc in Hd.
    destruct (written_header_lengths (clock k) f Hf) as [Hp Hc].
    cbn [length Nat.add Archiver.list_loop].
    rewrite (read_chunk bs p _ (EntryHeader_bytes (written_header (clock k) f))
               (list_byte_of_string (rel_path f) ++ content f
                  ++ Archiver.write_entries clock (S k) files ++ rest))
      by (done || apply length_EntryHeader_bytes).
    rewrite EntryHeader_of_bytes_bytes.
    cbn [path_length content_size EntryHeader_wrap].
    rewrite Hp, Hc, !Nat2Z.id.
    pose proof (drop_record _ _ _ _ _ _ Hd) as Hd3.
    rewrite <- (length_EntryHeader_bytes (written_header (clock k) f)) in Hd3 |- *.
    apply drop_advance in Hd.
    rewrite (read_chunk _ _ _ (list_byte_of_string (rel_path f))
               (content f ++ Archiver.write_entries clock (S k) files ++ rest))
      by done.
    rewrite seekg_cur_forward by (destruct Hf; lia).
    rewrite (IH _ _ _ _ _ _ Hfits Hd3), string_of_list_byte_of_string.
    cbn [fmap list_fmap app sum_list_with].
    rewrite length_EntryHeader_bytes, length_list_byte_of_string.
    unfold entry_size. do 3 f_equal; [lia|f_equal; lia].
Qed.

(** [list] on the container [pack] made of [files]. *)
Lemma list_pack files archive :
  Archiver.pack clock (Some files) true = Ok archive ->
  (Z.of_nat (length files) < 2 ^ 32)%Z ->
  Forall fits files ->
  Archiver.list uninit_header uninit_entry (Some archive) =
  Ok {| shown_count := Z.of_nat (length files);
        lines := (fun f => (rel_path f, Z.of_nat (length (content f)))) <$> files |}.
Proof.
  intros Hpack Hn Hfits. apply pack_inv in Hpack.
  unfold Archiver.list. cbn [ifstream_open].
  fold (at_pos archive 0).
  rewrite (read_chunk archive 0 _
             (FileHeader_bytes (written_global_header clock (length files)))
             (Archiver.write_entries clock 1 files))
    by (by rewrite ?length_FileHeader_bytes, ?drop_0).
  rewrite FileHeader_of_bytes_bytes.
  cbn [FileHeader_wrap written_global_header entry_count].
  rewrite wrap_wrap, wrap_small, Nat2Z.id by lia.
  assert (Hd : drop sizeof_FileHeader archive =
               Archiver.write_entries clock 1 files ++ []).
  { rewrite Hpack, app_nil_r.
    apply drop_app_length'. by rewrite length_FileHeader_bytes. }
  pose proof (list_loop_entries files 1 0 archive sizeof_FileHeader [] 0
                Hfits Hd) as H.
  rewrite Nat.add_0_r in H. cbn [Nat.add] in H.
  change (0 + sizeof_FileHeader) with sizeof_FileHeader. rewrite H.
  cbn [Archiver.list_loop]. by rewrite app_nil_r.
Qed.

Lemma sum_Z_entry_sizes files :
  sum_Z ((fun f => Z.of_nat (entry_size f)) <$> files) =
  Z.of_nat (sum_list_with entry_size files).
Proof.
  induction files as [|f files IH]; [done|].
  rewrite fmap_cons. unfold sum_Z in *. cbn [foldr sum_list_with].
  rewrite IH. lia.
Qed.

Lemma stored_spans files archive :
  Archiver.pack clock (Some files) true = Ok archive ->
  Forall fits files ->
  record_span <$> stored_entries archive files =
  (fun f => Z.of_nat (entry_size f)) <$> files.
Proof.
  intros Hpack Hfits. apply list_eq. intros i.
  unfold stored_entries. rewrite !list_lookup_fmap.
  destruct (files !! i) as [f|] eqn:Hi.
  - rewrite lookup_seq_lt by (by eapply lookup_lt_Some). cbn [fmap option_fmap option_map Nat.add].
    rewrite (stored_entry_written files archive i f Hpack Hi).
    assert (Hf : fits f) by exact (Forall_lookup_1 _ _ _ _ Hfits Hi).
    destruct (written_header_lengths (clock (S i)) f Hf) as [Hp Hc].
    unfold record_span. cbn [EntryHeader_wrap path_length content_size].
    rewrite Hp, Hc, length_list_byte_of_string. unfold entry_size.
    f_equal. lia.
  - rewrite lookup_seq_ge; [done|]. by apply lookup_ge_None.
Qed.

End Archiver_facts.

(* ===================================================================== *)
(** * The properties of the specification                                 *)
(* ===================================================================== *)

(** C1 (round trip). For a directory tree of regular files (zero-byte files
    and files in nested directories included) whose sizes fit the fields of
    the format, [unpack] on the container [pack] made of it ends normally
    and leaves, for every file of the tree, a file at the target directory
    joined with the same relative path, with the same bytes (and mode
    0644); no other path of the file system is touched. *)
Theorem unpack_pack_roundtrip (clock : nat -> Z) (uh : FileHeader)
  (ue : nat -> EntryHeader) (files : list source_file) (archive : list byte)
  (target : string) (fs : gmap string file) :
  Archiver.pack clock (Some files) true = Ok archive ->
  tree files ->
  (Z.of_nat (length files) < 2 ^ 32)%Z ->
  Forall fits files ->
  exists fs',
    Archiver.unpack uh ue (Some archive) target fs = (fs', Ok tt) ∧
    (forall f, f ∈ files ->
       fs' !! path_join target (rel_path f) =
       Some {| bytes := content f; perms := 420 |}) ∧
    (forall q, (forall f, f ∈ files -> q ≠ path_join target (rel_path f)) ->
       fs' !! q = fs !! q).
Proof.
  intros Hpack Htree Hn Hfits. exists (extract_all target files fs).
  split; [|split].
  - by eapply unpack_pack.
  - intros f Hf. apply extract_all_lookup; [|done]. by apply tree_keys.
  - intros q Hq. by apply extract_all_lookup_other.
Qed.

Lemma test_files_tree : tree test_files.
Proof.
  split.
  - refine (bool_decide_unpack _ _). vm_compute. exact I.
  - repeat constructor.
Defined.

Lemma test_files_fit : Forall fits test_files.
Proof. repeat constructor. Defined.

Lemma unpack_pack_roundtrip_witness :
  exists fs',
    Archiver.unpack zero_header zero_entry (Some test_archive) "out" ∅ =
      (fs', Ok tt) ∧
    (forall f, f ∈ test_files ->
       fs' !! path_join "out" (rel_path f) =
       Some {| bytes := content f; perms := 420 |}) ∧
    (forall q, (forall f, f ∈ test_files -> q ≠ path_join "out" (rel_path f)) ->
       fs' !! q = (∅ : gmap string file) !! q).
Proof.
  apply (unpack_pack_roundtrip test_clock zero_header zero_entry test_files
           test_archive "out" ∅).
  - reflexivity.
  - exact test_files_tree.
  - simpl. lia.
  - exact test_files_fit.
Defined.

(** C3 (corruption detection). In a container made by [pack], replacing
    any one byte of the content region of an entry by a different byte
    makes [unpack] end with the CRC mismatch error that carries the path of
    that entry, the stored checksum and the checksum computed from the
    modified content, the two being different; the file system is then
    exactly what the entries before it produced: nothing is written for the
    corrupted entry nor for any later one. *)
Theorem unpack_detects_corruption (clock : nat -> Z) (uh : FileHeader)
  (ue : nat -> EntryHeader) (files : list source_file) (archive : list byte)
  (i : nat) (f : source_file) (j : nat) (old b : byte)
  (target : string) (fs : gmap string file) :
  Archiver.pack clock (Some files) true = Ok archive ->
  (Z.of_nat (length files) < 2 ^ 32)%Z ->
  Forall fits files ->
  files !! i = Some f ->
  content f !! j = Some old ->
  b ≠ old ->
  archive !! (content_offset files i f + j) = Some old ∧
  Archiver.unpack uh ue
    (Some (<[content_offset files i f + j := b]> archive)) target fs =
    (extract_all target (take i files) fs,
     Err (CrcMismatch (rel_path f)
            (CRC32.calculate (content f))
            (CRC32.calculate (<[j := b]> (content f))))) ∧
  CRC32.calculate (<[j := b]> (content f)) ≠ CRC32.calculate (content f).
Proof.
  intros Hpack Hn Hfits Hi Hj Hb.
  destruct (pack_split clock files archive i f Hpack Hi)
    as (front & back & Ha & Hfront & _ & Hlen).
  set (wh := written_header (clock (S i)) f) in *.
  set (pth := list_byte_of_string (rel_path f)) in *.
  assert (Hj' : j < length (content f)) by (by eapply lookup_lt_Some).
  assert (Hi' : i < length files) by (by eapply lookup_lt_Some).
  assert (Hoff : content_offset files i f =
                 length (front ++ EntryHeader_bytes wh ++ pth)).
  { unfold content_offset, pth.
    rewrite !length_app, Hlen, length_EntryHeader_bytes,
      length_list_byte_of_string. lia. }
  assert (Ha' : archive =
                (front ++ EntryHeader_bytes wh ++ pth) ++ content f ++ back).
  { rewrite Ha. by rewrite <- !app_assoc. }
  pose proof (calculate_insert_ne _ _ _ _ Hj Hb) as Hcrc.
  split; [|split; [|done]].
  - rewrite Ha', Hoff, lookup_app_r by lia.
    replace (length (front ++ EntryHeader_bytes wh ++ pth) + j
             - length (front ++ EntryHeader_bytes wh ++ pth)) with j by lia.
    by apply lookup_app_l_Some.
  - remember (<[content_offset files i f + j := b]> archive) as bs' eqn:Hbs'.
    set (c' := <[j := b]> (content f)) in *.
    set (pre := take i files).
    set (rest := EntryHeader_bytes wh ++ pth ++ c' ++ back).
    assert (Hsplit : bs' =
              FileHeader_bytes (written_global_header clock (length files))
                ++ Archiver.write_entries clock 1 pre ++ rest).
    { rewrite Hbs', Hoff, Ha', insert_app_r, insert_app_l by done.
      rewrite Hfront. unfold rest, c', pre. by rewrite <- !app_assoc. }
    rewrite (unpack_header uh ue bs' _ _ target fs Hsplit).
    cbn [written_global_header magic entry_count].
    change (negb (wrap 32 KAR_MAGIC =? KAR_MAGIC)%Z) with false. cbv iota.
    rewrite wrap_wrap, wrap_small, Nat2Z.id by lia.
    assert (Hpre : Forall fits pre) by (by apply Forall_take).
    assert (Hd : drop sizeof_FileHeader bs' =
                 Archiver.write_entries clock 1 pre ++ rest).
    { rewrite Hsplit. apply drop_app_length'.
      by rewrite length_FileHeader_bytes. }
    replace (length files)
      with (length pre + S (length (drop (S i) files)))
      by (unfold pre; rewrite length_take, length_drop; lia).
    rewrite (unpack_loop_entries clock ue pre 1 0 bs' sizeof_FileHeader rest
               _ target fs Hpre Hd).
    assert (Hd' : drop (sizeof_FileHeader + sum_list_with entry_size pre) bs'
                  = EntryHeader_bytes wh ++ pth ++ c' ++ back).
    { rewrite <- (length_write_entries clock pre 1).
      by eapply drop_advance. }
    assert (Hf : fits f) by exact (Forall_lookup_1 _ _ _ _ Hfits Hi).
    destruct (written_header_lengths (clock (S i)) f Hf) as [Hp Hc].
    assert (Hc' : wrap 64 (content_size wh) = Z.of_nat (length c')).
    { unfold c'. by rewrite length_insert. }
    rewrite (unpack_loop_record ue _ _ bs' _ wh pth c' back target _ Hd' Hp Hc').
    cbn [wh written_header checksum].
    rewrite (wrap_small 32 (CRC32.calculate _)) by apply calculate_range.
    apply Z.eqb_neq in Hcrc. rewrite Hcrc. cbn [negb].
    unfold pth. by rewrite string_of_list_byte_of_string.
Qed.

Lemma unpack_detects_corruption_witness :
  test_archive !! (content_offset test_files 1 test_b + 0) = Some "w"%byte ∧
  Archiver.unpack zero_header zero_entry
    (Some (<[content_offset test_files 1 test_b + 0 := "W"%byte]> test_archive))
    "out" ∅ =
    (extract_all "out" (take 1 test_files) ∅,
     Err (CrcMismatch (rel_path test_b)
            (CRC32.calculate (content test_b))
            (CRC32.calculate (<[0 := "W"%byte]> (content test_b))))) ∧
  CRC32.calculate (<[0 := "W"%byte]> (content test_b))
    ≠ CRC32.calculate (content test_b).
Proof.
  apply (unpack_detects_corruption test_clock zero_header zero_entry test_files
           test_archive 1 test_b 0 "w"%byte "W"%byte "out" ∅).
  - reflexivity.
  - simpl. lia.
  - exact test_files_fit.
  - reflexivity.
  - reflexivity.
  - discriminate.
Defined.

(** C2 (checksum engine). The table has 256 entries, entry [i] being [i]
    after 8 shift/XOR rounds with polynomial 0xEDB88320; [calculate] starts
    from 0xFFFFFFFF, folds every byte through the table and inverts the
    result; on every input it agrees with the bit-at-a-time reflected
    CRC-32 of IEEE 802.3, and it returns the reference values on the empty
    input, on "a", on "abc" and on "123456789". *)
Theorem crc32_standard :
  CRC32.table_ =
    (fun i => Nat.iter 8 CRC32.shift_xor (Z.of_nat i)) <$> seq 0 256 ∧
  (forall x, CRC32.shift_xor x =
     Z.lxor (Z.shiftr x 1) (if Z.odd x then 0xEDB88320 else 0)%Z) ∧
  (forall data, CRC32.calculate data =
     Z.lxor (fold_left CRC32.step data 0xFFFFFFFF%Z) 0xFFFFFFFF%Z) ∧
  (forall data, CRC32.calculate data = CRC32.crc32_ieee data) ∧
  CRC32.calculate [] = 0%Z ∧
  CRC32.calculate (list_byte_of_string "a") = 0xE8B7BE43%Z ∧
  CRC32.calculate (list_byte_of_string "abc") = 0x352441C2%Z ∧
  CRC32.calculate (list_byte_of_string "123456789") = 0xCBF43926%Z.
Proof.
  split; [reflexivity|]. split; [apply shift_xor_alt|].
  split; [reflexivity|]. split.
  - intros data. unfold CRC32.calculate, CRC32.crc32_ieee.
    by rewrite fold_step_bitwise.
  - repeat split; vm_compute; reflexivity.
Qed.

(** C4, as the code has it. For every entry written by [pack], the stored
    checksum is the CRC-32 of the content of the entry, and an entry whose
    stored [content_size] is zero has the stored checksum zero. (The
    converse does not hold, see [zero_checksum_nonempty_content].) *)
Theorem stored_checksum_is_crc (clock : nat -> Z) (files : list source_file)
  (archive : list byte) (i : nat) (f : source_file) :
  Archiver.pack clock (Some files) true = Ok archive ->
  files !! i = Some f ->
  fits f ->
  checksum (stored_entry archive files i) = CRC32.calculate (content f) ∧
  (content_size (stored_entry archive files i) = 0%Z ->
   checksum (stored_entry archive files i) = 0%Z).
Proof.
  intros Hpack Hi [_ Hc].
  rewrite (stored_entry_written clock files archive i f Hpack Hi).
  cbn [EntryHeader_wrap written_header checksum content_size].
  rewrite (wrap_small 32 (CRC32.calculate _)) by apply calculate_range.
  split; [done|].
  rewrite wrap_wrap, wrap_small by lia. intros H0.
  destruct (content f); [reflexivity|simpl in H0; lia].
Qed.

Lemma stored_checksum_is_crc_witness :
  checksum (stored_entry test_archive test_files 2) =
    CRC32.calculate (content test_empty) ∧
  (content_size (stored_entry test_archive test_files 2) = 0%Z ->
   checksum (stored_entry test_archive test_files 2) = 0%Z).
Proof.
  apply (stored_checksum_is_crc test_clock test_files test_archive 2 test_empty).
  - reflexivity.
  - reflexivity.
  - split; vm_compute; reflexivity.
Defined.

(** C4 as stated fails: the entry [pack] writes for the four-byte file
    9D 0A D9 6D has the stored checksum zero and the stored [content_size]
    four. *)
Lemma zero_checksum_nonempty_content :
  Archiver.pack test_clock (Some [zero_crc_file]) true = Ok zero_crc_archive ∧
  checksum (stored_entry zero_crc_archive [zero_crc_file] 0) = 0%Z ∧
  content_size (stored_entry zero_crc_archive [zero_crc_file] 0) = 4%Z ∧
  ¬ (checksum (stored_entry zero_crc_archive [zero_crc_file] 0) = 0%Z ->
     content_size (stored_entry zero_crc_archive [zero_crc_file] 0) = 0%Z).
Proof.
  assert (Hck : checksum (stored_entry zero_crc_archive [zero_crc_file] 0) = 0%Z)
    by (vm_compute; reflexivity).
  assert (Hsz : content_size (stored_entry zero_crc_archive [zero_crc_file] 0) = 4%Z)
    by (vm_compute; reflexivity).
  split; [reflexivity|]. split; [done|]. split; [done|].
  intros H. specialize (H Hck). rewrite Hsz in H. discriminate.
Qed.

(** The single-file archiver stores the checksum zero whatever the
    content, and the same fixed permission bits and clock reading. *)
Lemma legacy_write_entry_header now f :
  EntryHeader_of_bytes (take sizeof_EntryHeader (Legacy.write_entry now f)) =
  {| path_length := wrap 32 (Z.of_nat (String.length (rel_path f)));
     content_size := wrap 64 (Z.of_nat (length (content f)));
     modified_time := wrap 64 now;
     checksum := 0;
     permissions := 420 |}.
Proof.
  unfold Legacy.write_entry.
  rewrite take_app_length' by (by rewrite length_EntryHeader_bytes).
  rewrite EntryHeader_of_bytes_bytes. unfold EntryHeader_wrap.
  cbn [path_length content_size modified_time checksum permissions].
  by rewrite !wrap_wrap, length_list_byte_of_string.
Qed.

(** [read_entry] of the single-file archiver writes a record at the target
    directory joined with its path, with no look at the path or at the
    checksum. *)
Lemma legacy_read_entry_record ue i bs p e pth c rest t fs :
  drop p bs = EntryHeader_bytes e ++ pth ++ c ++ rest ->
  wrap 32 (path_length e) = Z.of_nat (length pth) ->
  wrap 64 (content_size e) = Z.of_nat (length c) ->
  Legacy.read_entry ue i (at_pos bs p) t fs =
  (at_pos bs (p + sizeof_EntryHeader + length pth + length c),
   write_file (path_join t (string_of_list_byte pth)) c
     (wrap 16 (permissions e)) fs).
Proof.
  intros Hd Hp Hc. unfold Legacy.read_entry.
  rewrite (read_chunk bs p _ (EntryHeader_bytes e) (pth ++ c ++ rest))
    by (done || apply length_EntryHeader_bytes).
  rewrite EntryHeader_of_bytes_bytes.
  cbn [path_length content_size permissions EntryHeader_wrap].
  rewrite Hp, Hc, !Nat2Z.id.
  pose proof (length_EntryHeader_bytes e) as Le.
  assert (Hd1 : drop (p + sizeof_EntryHeader) bs = pth ++ c ++ rest).
  { rewrite <- Le. by eapply drop_advance. }
  rewrite (read_chunk _ _ _ pth (c ++ rest)) by done.
  apply drop_advance in Hd1.
  by rewrite (read_chunk _ _ _ c rest) by done.
Qed.

(** C10 (stored metadata). For every entry written by [pack], the stored
    permission bits are 0644 and the stored modification time is the
    reading of the clock made while [pack] writes that entry; the
    permission bits and modification time of the source file play no part:
    files with the same paths and contents give the same container. *)
Theorem stored_metadata_fixed (clock : nat -> Z) (files files' : list source_file)
  (archive : list byte) (i : nat) (f : source_file) :
  Archiver.pack clock (Some files) true = Ok archive ->
  files !! i = Some f ->
  Forall2 (fun g g' => rel_path g = rel_path g' ∧ content g = content g')
    files files' ->
  permissions (stored_entry archive files i) = 420%Z ∧
  modified_time (stored_entry archive files i) = wrap 64 (clock (S i)) ∧
  Archiver.pack clock (Some files') true = Ok archive.
Proof.
  intros Hpack Hi Hsame.
  rewrite (stored_entry_written clock files archive i f Hpack Hi).
  cbn [EntryHeader_wrap written_header permissions modified_time].
  split; [reflexivity|]. split; [apply wrap_wrap|].
  rewrite <- Hpack. unfold Archiver.pack. cbn [negb].
  rewrite <- (Forall2_length _ _ _ Hsame).
  by rewrite (write_entries_same_content clock files files' 1 Hsame).
Qed.

(** The files of the test with other modes and modification times. *)
Lemma stored_metadata_fixed_witness :
  permissions (stored_entry test_archive test_files 1) = 420%Z ∧
  modified_time (stored_entry test_archive test_files 1) =
    wrap 64 (test_clock 2) ∧
  Archiver.pack test_clock
    (Some [ {| rel_path := "a.txt"; content := list_byte_of_string "hello";
               mtime := 0; mode := 511 |};
            {| rel_path := "subdir/b.txt"; content := list_byte_of_string "world";
               mtime := 86400; mode := 256 |};
            {| rel_path := "empty.txt"; content := [];
               mtime := 3; mode := 0 |} ]) true = Ok test_archive.
Proof.
  apply (stored_metadata_fixed test_clock test_files _ test_archive 1 test_b).
  - reflexivity.
  - reflexivity.
  - repeat constructor.
Defined.

(** C8 (empty container). On a byte stream that holds a whole global
    header with the magic number and [entry_count] zero, [unpack] ends
    normally and leaves the file system as it was, and [list] ends normally
    with no line. *)
Theorem empty_archive_reads (uh : FileHeader) (ue : nat -> EntryHeader)
  (bs : list byte) (target : string) (fs : gmap string file) :
  sizeof_FileHeader ≤ length bs ->
  magic (stored_header bs) = KAR_MAGIC ->
  entry_count (stored_header bs) = 0%Z ->
  Archiver.unpack uh ue (Some bs) target fs = (fs, Ok tt) ∧
  Archiver.list uh ue (Some bs) = Ok {| shown_count := 0; lines := [] |}.
Proof.
  intros Hlen Hmagic Hcount.
  assert (Hread : forall old,
            read (ifstream_open (Some bs)) sizeof_FileHeader old =
            (take sizeof_FileHeader bs, at_pos bs sizeof_FileHeader)).
  { intros old. unfold read. cbn [ifstream_open failbit gpos buf].
    rewrite drop_0. by case_decide. }
  unfold stored_header in *. split.
  - unfold Archiver.unpack. cbn [ifstream_open failbit]. 
    change {| buf := bs; gpos := 0; failbit := false |}
      with (ifstream_open (Some bs)).
    rewrite Hread, Hmagic, Hcount, Z.eqb_refl. reflexivity.
  - unfold Archiver.list. by rewrite Hread, Hcount.
Qed.

Lemma empty_archive_reads_witness :
  Archiver.unpack zero_header zero_entry
    (Some (FileHeader_bytes (written_global_header test_clock 0))) "out" ∅
    = (∅, Ok tt) ∧
  Archiver.list zero_header zero_entry
    (Some (FileHeader_bytes (written_global_header test_clock 0)))
    = Ok {| shown_count := 0; lines := [] |}.
Proof.
  apply (empty_archive_reads zero_header zero_entry
           (FileHeader_bytes (written_global_header test_clock 0)) "out" ∅).
  - vm_compute. lia.
  - vm_compute. reflexivity.
  - vm_compute. reflexivity.
Defined.

(** C9 at its failing input: [list] on an archive that cannot be opened.
    [list] never tests the stream: it goes on with whatever the
    uninitialised header holds and returns normally, here (a header that
    reads as zero) with an empty listing. [unpack] does test the stream. *)
Theorem list_absent_archive :
  Archiver.list zero_header zero_entry None =
    Ok {| shown_count := 0; lines := [] |} ∧
  (forall uh ue, exists l, Archiver.list uh ue None = Ok l) ∧
  (forall uh ue t fs,
     Archiver.unpack uh ue None t fs = (fs, Err CannotOpenArchive)).
Proof.
  split; [reflexivity|]. split.
  - intros. apply list_always_returns.
  - intros. apply unpack_absent.
Qed.

(** C5 at its failing input: the archive of the test with its first byte
    overwritten. Its first four bytes are not the magic number; [list]
    never compares them and prints both entries, where [unpack] refuses the
    stream. *)
Theorem list_ignores_magic :
  take 4 bad_magic_archive ≠ le_bytes 4 KAR_MAGIC ∧
  Archiver.list zero_header zero_entry (Some bad_magic_archive) =
    Ok {| shown_count := 3;
          lines := [("a.txt", 5%Z); ("subdir/b.txt", 5%Z); ("empty.txt", 0%Z)] |} ∧
  Archiver.unpack zero_header zero_entry (Some bad_magic_archive) "out" ∅ =
    (∅, Err WrongMagic).
Proof.
  split; [|split].
  - vm_compute. discriminate.
  - vm_compute. reflexivity.
  - apply unpack_rejects_bad_magic.
    + vm_compute. lia.
    + vm_compute. discriminate.
Qed.


(** C7 (length invariant). After a successful [pack] of files whose number
    and sizes fit the fields of the format, the length of the container is
    the size of the global header plus, over the stored entry headers, the
    size of the entry header plus its [path_length] plus its
    [content_size]; there is one stored entry per file, and [entry_count]
    in the stored global header is their number. [list], which walks the
    container by the stored lengths, finds that many records. *)
Theorem pack_length_invariant (clock : nat -> Z) (uh : FileHeader)
  (ue : nat -> EntryHeader) (files : list source_file) (archive : list byte) :
  Archiver.pack clock (Some files) true = Ok archive ->
  (Z.of_nat (length files) < 2 ^ 32)%Z ->
  Forall fits files ->
  Z.of_nat (length archive) =
    (Z.of_nat sizeof_FileHeader
     + sum_Z (record_span <$> stored_entries archive files))%Z ∧
  length (stored_entries archive files) = length files ∧
  entry_count (stored_header archive) = Z.of_nat (length files) ∧
  Archiver.list uh ue (Some archive) =
    Ok {| shown_count := Z.of_nat (length files);
          lines := (fun f => (rel_path f, Z.of_nat (length (content f))))
                     <$> files |}.
Proof.
  intros Hpack Hn Hfits. split; [|split; [|split]].
  - rewrite (stored_spans clock files archive Hpack Hfits), sum_Z_entry_sizes.
    rewrite (pack_inv clock files archive Hpack) at 1.
    rewrite length_app, length_FileHeader_bytes, length_write_entries. lia.
  - unfold stored_entries. by rewrite length_fmap, length_seq.
  - rewrite (stored_header_written clock files archive Hpack).
    cbn [FileHeader_wrap written_global_header entry_count].
    rewrite wrap_wrap. apply wrap_small. lia.
  - by apply (list_pack clock).
Qed.

Lemma pack_length_invariant_witness :
  Z.of_nat (length test_archive) =
    (Z.of_nat sizeof_FileHeader
     + sum_Z (record_span <$> stored_entries test_archive test_files))%Z ∧
  length (stored_entries test_archive test_files) = length test_files ∧
  entry_count (stored_header test_archive) = Z.of_nat (length test_files) ∧
  Archiver.list zero_header zero_entry (Some test_archive) =
    Ok {| shown_count := Z.of_nat (length test_files);
          lines := (fun f => (rel_path f, Z.of_nat (length (content f))))
                     <$> test_files |}.
Proof.
  apply (pack_length_invariant test_clock zero_header zero_entry test_files
           test_archive).
  - reflexivity.
  - simpl. lia.
  - exact test_files_fit.
Defined.

(** Sanity checks on the archive of the repository's own test. *)
Example unpack_test :
  Archiver.unpack zero_header zero_entry (Some test_archive) "out" ∅ =
  (write_file "out/empty.txt" [] 420
    (write_file "out/subdir/b.txt" (list_byte_of_string "world") 420
      (write_file "out/a.txt" (list_byte_of_string "hello") 420 ∅)), Ok tt).
Proof. vm_compute. reflexivity. Qed.
Example list_test :
  Archiver.list zero_header zero_entry (Some test_archive) =
  Ok {| shown_count := 3;
        lines := [("a.txt", 5%Z); ("subdir/b.txt", 5%Z); ("empty.txt", 0%Z)] |}.
Proof. vm_compute. reflexivity. Qed.

(* ===================================================================== *)
(** * Further properties of the checksum engine                           *)
(* ===================================================================== *)

Section CRC32_bursts.
Local Open Scope Z_scope.
Import CRC32.

Lemma add_shifted_lxor b v :
  0 <= b < 256 -> b + 256 * v = Z.lxor b (Z.shiftl v 8).
Proof.
  intros Hb. rewrite Z.shiftl_mul_pow2 by lia. change (2 ^ 8) with 256.
  rewrite (Z.mul_comm 256 v). rewrite <- Z.shiftl_mul_pow2 with (n := 8) by lia.
  apply Z.add_nocarry_lxor. apply Z.bits_inj'. intros n Hn.
  rewrite Z.land_spec, Z.bits_0.
  destruct (Z.lt_ge_cases n 8) as [Hlt|Hge].
  - rewrite Z.shiftl_spec_low by lia. apply andb_false_r.
  - rewrite <- (Z.mod_small b (2 ^ 8)) by (change (2 ^ 8) with 256; lia).
    by rewrite Z.mod_pow2_bits_high by lia.
Qed.

(** Folding [n] bytes into the register is [8 n] one-bit divisions of the
    register XORed with the bytes read as one little-endian number. *)
Lemma fold_step_le_value w x :
  fold_left step w x =
  Nat.iter (8 * length w) shift_xor (Z.lxor x (le_value w)).
Proof.
  revert x. induction w as [|b w IH]; intros x.
  - simpl. by rewrite Z.lxor_0_r.
  - cbn [fold_left le_value length]. rewrite IH, step_bitwise.
    unfold bitwise_step.
    replace (8 * S (length w))%nat with (8 * length w + 8)%nat by lia.
    rewrite Nat.iter_add. f_equal.
    rewrite add_shifted_lxor by apply Z_of_byte_range.
    rewrite <- Z.lxor_assoc.
    rewrite (iter_shift_xor_lxor 8 (Z.lxor x (Z_of_byte b))
               (Z.shiftl (le_value w) 8)).
    pose proof (iter_shift_xor_shiftl 8 (le_value w)) as H8.
    change (Z.of_nat 8) with 8 in H8. by rewrite H8.
Qed.

Lemma le_value_inj (w w' : list byte) :
  length w = length w' -> le_value w = le_value w' -> w = w'.
Proof.
  intros Hl Hv.
  rewrite <- (le_bytes_le_value w), <- (le_bytes_le_value w').
  by rewrite Hl, Hv.
Qed.

Lemma fold_step_burst_inj w w' x :
  0 <= x < 2 ^ 32 ->
  length w = length w' -> (length w ≤ 4)%nat ->
  fold_left step w x = fold_left step w' x -> w = w'.
Proof.
  intros Hx Hl H4 E. rewrite !fold_step_le_value, <- Hl in E.
  assert (Hr : forall v : list byte, (length v ≤ 4)%nat ->
            0 <= le_value v < 2 ^ 32).
  { intros v Hv. pose proof (le_value_range v) as [? Hlt]. split; [done|].
    eapply Z.lt_le_trans; [exact Hlt|].
    apply Z.pow_le_mono_r; lia. }
  apply iter_shift_xor_inj in E;
    [|apply lxor_range; [lia|done|apply Hr; lia]..].
  apply lxor_cancel_l in E. by apply le_value_inj.
Qed.

Lemma iter_shift_xor_0 n : Nat.iter n shift_xor 0 = 0.
Proof. induction n as [|n IH]; [done|]. by rewrite Nat.iter_succ, IH. Qed.

(** Two windows of the same length, folded into the same register, that
    differ within 32 consecutive bits only: [e] holds the bits that differ
    and [s] is the position of the lowest of them. *)
Lemma fold_step_window_inj w w' x s e :
  0 <= x < 2 ^ 32 ->
  length w = length w' ->
  0 <= s -> 0 <= e < 2 ^ 32 ->
  Z.lxor (le_value w) (le_value w') = e * 2 ^ s ->
  fold_left step w x = fold_left step w' x -> w = w'.
Proof.
  intros Hx Hl Hs He HD E.
  rewrite !fold_step_le_value, <- Hl, !iter_shift_xor_lxor in E.
  apply lxor_cancel_l in E.
  assert (E0 : Nat.iter (8 * length w) shift_xor (e * 2 ^ s) = 0).
  { rewrite <- HD, iter_shift_xor_lxor, E. apply Z.lxor_nilpotent. }
  assert (e = 0) as ->.
  { destruct (Z.eq_dec e 0) as [|Hne]; [done|]. exfalso.
    assert (Hlt : e * 2 ^ s < 2 ^ (8 * Z.of_nat (length w))).
    { rewrite <- HD. apply lxor_range; [lia|apply le_value_range|].
      rewrite Hl. apply le_value_range. }
    assert (Hs8 : s < 8 * Z.of_nat (length w)).
    { apply (Z.pow_lt_mono_r_iff 2); [lia|lia|].
      pose proof (Z.pow_pos_nonneg 2 s ltac:(lia) Hs). nia. }
    replace (8 * length w)%nat
      with ((8 * length w - Z.to_nat s) + Z.to_nat s)%nat in E0 by lia.
    rewrite Nat.iter_add, <- Z.shiftl_mul_pow2 in E0 by lia.
    pose proof (iter_shift_xor_shiftl (Z.to_nat s) e) as Hsh.
    rewrite Z2Nat.id in Hsh by lia. rewrite Hsh in E0.
    apply Hne. apply (iter_shift_xor_inj (8 * length w - Z.to_nat s));
      [done|lia|]. by rewrite iter_shift_xor_0. }
  rewrite Z.mul_0_l in HD. apply Z.lxor_eq in HD. by apply le_value_inj.
Qed.

End CRC32_bursts.

(** A difference confined to four consecutive bytes shows in the checksum. *)
Lemma calculate_burst (pre w w' post : list byte) :
  length w = length w' ->
  length w ≤ 4 ->
  w ≠ w' ->
  CRC32.calculate (pre ++ w ++ post) ≠ CRC32.calculate (pre ++ w' ++ post).
Proof.
  intros Hl H4 Hne E. apply Hne.
  unfold CRC32.calculate in E. apply lxor_cancel_r in E.
  rewrite !fold_left_app in E.
  apply fold_step_inj in E;
    [|apply fold_step_range, fold_step_range; lia..].
  eapply fold_step_burst_inj; [|done|done|exact E].
  apply fold_step_range. lia.
Qed.

(** X1 (burst errors). Two buffers of the same length that differ within
    32 consecutive bits only, wherever these lie and also across byte
    boundaries, have different checksums. The buffers are [pre ++ w ++ post]
    and [pre ++ w' ++ post]; read as little-endian numbers, [w] and [w']
    differ by XOR in [e * 2 ^ s], where [e] is below [2 ^ 32]. With [s = 0]
    this is any difference inside four whole bytes. *)
Theorem calculate_detects_burst (pre w w' post : list byte) (s e : Z) :
  length w = length w' ->
  w ≠ w' ->
  (0 <= s)%Z ->
  (0 <= e < 2 ^ 32)%Z ->
  Z.lxor (le_value w) (le_value w') = (e * 2 ^ s)%Z ->
  CRC32.calculate (pre ++ w ++ post) ≠ CRC32.calculate (pre ++ w' ++ post).
Proof.
  intros Hl Hne Hs He HD E. apply Hne.
  unfold CRC32.calculate in E. apply lxor_cancel_r in E.
  rewrite !fold_left_app in E.
  apply fold_step_inj in E;
    [|apply fold_step_range, fold_step_range; lia..].
  eapply (fold_step_window_inj w w' _ s e); [|done|done|done|done|exact E].
  apply fold_step_range. lia.
Qed.

(** A burst over bits 4 to 35 of a five-byte window: its first and its
    last bit are flipped. *)
Lemma calculate_detects_burst_witness :
  CRC32.calculate (list_byte_of_string "ab" ++ list_byte_of_string "hello"
                     ++ list_byte_of_string " world")
  ≠ CRC32.calculate (list_byte_of_string "ab" ++ list_byte_of_string "xellg"
                       ++ list_byte_of_string " world").
Proof.
  apply (calculate_detects_burst (list_byte_of_string "ab")
           (list_byte_of_string "hello") (list_byte_of_string "xellg")
           (list_byte_of_string " world") 4 (1 + 2 ^ 31)).
  - reflexivity.
  - discriminate.
  - lia.
  - lia.
  - reflexivity.
Defined.

(* ===================================================================== *)
(** * The progress figures                                                *)
(* ===================================================================== *)

Section Progress.
Local Open Scope Z_scope.

Lemma to_int_small v : 0 <= v < 2 ^ 31 -> Archiver.to_int v = v.
Proof.
  intros Hv. unfold Archiver.to_int. rewrite wrap_small by lia.
  destruct (Z.ltb_spec v (2 ^ 31)); [done|lia].
Qed.

(** A quotient of a wrapped product by a count that is at least the
    multiplicand stays below the multiplier. *)
Lemma wrapped_quotient_bounds bits c i total :
  0 <= c -> 0 <= i < total ->
  0 <= wrap bits (c * (i + 1)) / total <= c.
Proof.
  intros Hc Hi. unfold wrap.
  destruct (Z.eq_dec (2 ^ bits) 0) as [E0|E0].
  - rewrite E0, Z.mod_0_r. split.
    + apply Z.div_pos; nia.
    + apply Z.div_le_upper_bound; nia.
  - assert (Hpos : 0 < 2 ^ bits).
    { destruct (Z.lt_ge_cases bits 0).
      - rewrite Z.pow_neg_r in E0 by done. done.
      - apply Z.pow_pos_nonneg; lia. }
    pose proof (Z.mod_pos_bound (c * (i + 1)) (2 ^ bits) Hpos) as [H0 _].
    assert (Hle : (c * (i + 1)) mod 2 ^ bits <= c * (i + 1))
      by (apply Z.mod_le; nia).
    split.
    + apply Z.div_pos; lia.
    + apply Z.div_le_upper_bound; nia.
Qed.

Lemma full_quotient c total :
  0 < total -> c * (total - 1 + 1) / total = c.
Proof.
  intros Ht. replace (total - 1 + 1) with total by lia.
  by rewrite Z.div_mul by lia.
Qed.

End Progress.

(** X2 (progress of [unpack]). For every entry of an archive with fewer
    than 2^32 entries the percentage shown is between 0 and 100 and the
    bar has between 0 and 30 filled cells. At the last entry they are 100
    and 30 when the archive has at most 42949672 entries. With one entry
    more the 32-bit product wraps and the last entry shows 0 percent. *)
Theorem unpack_progress_bounds (i total_entries : Z) :
  (0 <= i < total_entries)%Z ->
  (total_entries < 2 ^ 32)%Z ->
  (0 <= Archiver.unpack_progress i total_entries <= 100)%Z ∧
  (0 <= Archiver.unpack_pos i total_entries <= 30)%Z ∧
  ((total_entries <= 42949672)%Z ->
   Archiver.unpack_progress (total_entries - 1) total_entries = 100%Z ∧
   Archiver.unpack_pos (total_entries - 1) total_entries = 30%Z) ∧
  Archiver.unpack_progress 42949672 42949673 = 0%Z.
Proof.
  intros Hi Ht. unfold Archiver.unpack_progress, Archiver.unpack_pos.
  rewrite (wrap_small 32 (i + 1)) by lia.
  pose proof (wrapped_quotient_bounds 32 100 i total_entries ltac:(lia) Hi) as Hp.
  pose proof (wrapped_quotient_bounds 32 30 i total_entries ltac:(lia) Hi) as Hq.
  rewrite (Z.mul_comm (i + 1) 100).
  rewrite !to_int_small by lia.
  split; [done|]. split; [done|]. split; [|by vm_compute].
  intros Hsmall. rewrite (wrap_small 32 (total_entries - 1 + 1)) by lia.
  rewrite (Z.mul_comm (total_entries - 1 + 1) 100).
  rewrite !(wrap_small 32 (_ * _)) by lia.
  rewrite !full_quotient by lia. by rewrite !to_int_small by lia.
Qed.

Lemma unpack_progress_bounds_witness :
  (0 <= Archiver.unpack_progress 1 3 <= 100)%Z ∧
  (0 <= Archiver.unpack_pos 1 3 <= 30)%Z ∧
  ((3 <= 42949672)%Z ->
   Archiver.unpack_progress (3 - 1) 3 = 100%Z ∧
   Archiver.unpack_pos (3 - 1) 3 = 30%Z) ∧
  Archiver.unpack_progress 42949672 42949673 = 0%Z.
Proof. apply (unpack_progress_bounds 1 3); lia. Defined.

(** X3 (progress of [pack]). For every file of a walk whose number of
    files times 100 fits 64 bits, the percentage shown is
    [(i + 1) * 100 / total_files], between 0 and 100, the bar has
    [30 * (i + 1) / total_files] filled cells, between 0 and 30, and at
    the last file they are 100 and 30. *)
Theorem pack_progress_bounds (i total_files : Z) :
  (0 <= i < total_files)%Z ->
  (total_files * 100 < 2 ^ 64)%Z ->
  Archiver.pack_progress i total_files = ((i + 1) * 100 / total_files)%Z ∧
  Archiver.pack_pos i total_files = (30 * (i + 1) / total_files)%Z ∧
  (0 <= Archiver.pack_progress i total_files <= 100)%Z ∧
  (0 <= Archiver.pack_pos i total_files <= 30)%Z ∧
  Archiver.pack_progress (total_files - 1) total_files = 100%Z ∧
  Archiver.pack_pos (total_files - 1) total_files = 30%Z.
Proof.
  intros Hi Ht.
  assert (Hgen : forall j, (0 <= j < total_files)%Z ->
            Archiver.pack_progress j total_files = ((j + 1) * 100 / total_files)%Z ∧
            Archiver.pack_pos j total_files = (30 * (j + 1) / total_files)%Z ∧
            (0 <= (j + 1) * 100 / total_files <= 100)%Z ∧
            (0 <= 30 * (j + 1) / total_files <= 30)%Z).
  { intros j Hj. unfold Archiver.pack_progress, Archiver.pack_pos.
    rewrite (wrap_small 64 (j + 1)) by lia.
    rewrite !(wrap_small 64 (_ * _)) by lia.
    assert (H1 : (0 <= (j + 1) * 100 / total_files <= 100)%Z).
    { split; [apply Z.div_pos; lia|apply Z.div_le_upper_bound; lia]. }
    assert (H2 : (0 <= 30 * (j + 1) / total_files <= 30)%Z).
    { split; [apply Z.div_pos; lia|apply Z.div_le_upper_bound; lia]. }
    by rewrite !to_int_small by lia. }
  destruct (Hgen i Hi) as (E1 & E2 & B1 & B2).
  destruct (Hgen (total_files - 1)%Z ltac:(lia)) as (L1 & L2 & _ & _).
  rewrite E1, E2, L1, L2. repeat split; try lia.
  - rewrite Z.mul_comm. apply full_quotient. lia.
  - apply full_quotient. lia.
Qed.

Lemma pack_progress_bounds_witness :
  Archiver.pack_progress 0 3 = ((0 + 1) * 100 / 3)%Z ∧
  Archiver.pack_pos 0 3 = (30 * (0 + 1) / 3)%Z ∧
  (0 <= Archiver.pack_progress 0 3 <= 100)%Z ∧
  (0 <= Archiver.pack_pos 0 3 <= 30)%Z ∧
  Archiver.pack_progress (3 - 1) 3 = 100%Z ∧
  Archiver.pack_pos (3 - 1) 3 = 30%Z.
Proof. apply (pack_progress_bounds 0 3); lia. Defined.

(* ===================================================================== *)
(** * The reader on any well-formed container                             *)
(* ===================================================================== *)

Section Records.
Variable uninit_header : FileHeader.
Variable uninit_entry : nat -> EntryHeader.

Lemma le_bytes_mod n z :
  le_bytes n (z mod 2 ^ (8 * Z.of_nat n)) = le_bytes n z.
Proof.
  rewrite <- (le_value_le_bytes n z).
  rewrite <- (length_le_bytes n z) at 1. apply le_bytes_le_value.
Qed.

Lemma length_record_bytes r : length (record_bytes r) = record_size r.
Proof.
  unfold record_bytes, record_size.
  rewrite !length_app, length_EntryHeader_bytes, length_list_byte_of_string.
  lia.
Qed.

Lemma records_bytes_app rs1 rs2 :
  records_bytes (rs1 ++ rs2) = records_bytes rs1 ++ records_bytes rs2.
Proof.
  induction rs1 as [|r rs1 IH]; [done|].
  cbn [app records_bytes]. by rewrite IH, app_assoc.
Qed.

Lemma length_records_bytes rs :
  length (records_bytes rs) = sum_list_with record_size rs.
Proof.
  induction rs as [|r rs IH]; [done|].
  cbn [records_bytes sum_list_with].
  by rewrite length_app, length_record_bytes, IH.
Qed.

Lemma record_header_lengths r :
  record_fits r ->
  wrap 32 (path_length (record_header r)) =
    Z.of_nat (length (list_byte_of_string (r_path r))) ∧
  wrap 64 (content_size (record_header r)) = Z.of_nat (length (r_content r)).
Proof.
  intros [Hp Hc]. cbn [record_header path_length content_size].
  rewrite length_list_byte_of_string. split; apply wrap_small; lia.
Qed.

(** The loop of [unpack] on a stream positioned at records does what
    [unpack_records] says. *)
Lemma unpack_loop_records rs :
  forall i bs p rest t fs,
  Forall record_fits rs ->
  drop p bs = records_bytes rs ++ rest ->
  Archiver.unpack_loop uninit_entry (length rs) i (at_pos bs p) t fs =
  unpack_records t rs fs.
Proof.
  induction rs as [|r rs IH]; intros i bs p rest t fs Hfits Hd; [done|].
  apply Forall_cons in Hfits as [Hr Hfits].
  cbn [records_bytes] in Hd. unfold record_bytes in Hd.
  rewrite <- !app_assoc in Hd.
  destruct (record_header_lengths r Hr) as [Hp Hc].
  cbn [length unpack_records].
  rewrite (unpack_loop_record uninit_entry _ _ _ _ _ _ _ _ _ _ Hd Hp Hc).
  cbn [record_header checksum permissions].
  rewrite string_of_list_byte_of_string.
  destruct (CRC32.calculate (r_content r) =? wrap 32 (r_checksum r))%Z;
    cbn [negb]; [|done].
  apply drop_record in Hd. by rewrite (IH _ _ _ _ _ _ Hfits Hd).
Qed.

Lemma list_loop_records rs :
  forall i bs p rest m,
  Forall record_fits rs ->
  drop p bs = records_bytes rs ++ rest ->
  Archiver.list_loop uninit_entry (length rs + m) i (at_pos bs p) =
  (listed_line <$> rs)
    ++ Archiver.list_loop uninit_entry m (i + length rs)
         (at_pos bs (p + sum_list_with record_size rs)).
Proof.
  induction rs as [|r rs IH]; intros i bs p rest m Hfits Hd.
  - simpl. by rewrite !Nat.add_0_r.
  - apply Forall_cons in Hfits as [Hr Hfits].
    cbn [records_bytes] in Hd. unfold record_bytes in Hd.
    rewrite <- !app_assoc in Hd.
    destruct (record_header_lengths r Hr) as [Hp Hc].
    cbn [length Nat.add Archiver.list_loop].
    rewrite (read_chunk bs p _ (EntryHeader_bytes (record_header r))
               (list_byte_of_string (r_path r) ++ r_content r
                  ++ records_bytes rs ++ rest))
      by (done || apply length_EntryHeader_bytes).
    rewrite EntryHeader_of_bytes_bytes.
    cbn [path_length content_size EntryHeader_wrap].
    rewrite Hp, Hc, !Nat2Z.id.
    pose proof (drop_record _ _ _ _ _ _ Hd) as Hd3.
    rewrite <- (length_EntryHeader_bytes (record_header r)) in Hd3 |- *.
    apply drop_advance in Hd.
    rewrite (read_chunk _ _ _ (list_byte_of_string (r_path r))
               (r_content r ++ records_bytes rs ++ rest)) by done.
    rewrite seekg_cur_forward by (destruct Hr; lia).
    rewrite (IH _ _ _ _ _ Hfits Hd3), string_of_list_byte_of_string.
    cbn [fmap list_fmap app sum_list_with].
    rewrite length_EntryHeader_bytes, length_list_byte_of_string.
    unfold record_size, listed_line. do 3 f_equal; [lia|f_equal; lia].
Qed.

Lemma take_drop_records n (rs : list entry_record) (trailing : list byte) :
  records_bytes rs ++ trailing =
  records_bytes (take n rs) ++ (records_bytes (drop n rs) ++ trailing).
Proof.
  by rewrite app_assoc, <- records_bytes_app, take_drop.
Qed.

End Records.

(** [unpack] on a global header followed by records. *)
Lemma unpack_on_container (uh : FileHeader) (ue : nat -> EntryHeader)
  (gh : FileHeader) (rs : list entry_record) (trailing : list byte) (n : nat)
  (target : string) (fs : gmap string file) :
  wrap 32 (magic gh) = KAR_MAGIC ->
  wrap 32 (entry_count gh) = Z.of_nat n ->
  n ≤ length rs ->
  Forall record_fits (take n rs) ->
  Archiver.unpack uh ue
    (Some (FileHeader_bytes gh ++ records_bytes rs ++ trailing)) target fs =
  unpack_records target (take n rs) fs.
Proof.
  intros Hmagic Hcount Hn Hfits.
  rewrite (unpack_header uh ue _ gh (records_bytes rs ++ trailing) target fs
             eq_refl).
  rewrite Hmagic, Hcount, Z.eqb_refl, Nat2Z.id. cbn [negb].
  rewrite <- (length_take_le rs n Hn) at 1.
  eapply unpack_loop_records; [done|].
  rewrite drop_app_length' by (by rewrite length_FileHeader_bytes).
  apply take_drop_records.
Qed.



(* ===================================================================== *)
(** * Paths that leave the target directory                               *)
(* ===================================================================== *)

Section Outside.








End Outside.



(** [list] on a global header followed by records. *)
Lemma list_on_container (uh : FileHeader) (ue : nat -> EntryHeader)
  (gh : FileHeader) (rs : list entry_record) (trailing : list byte) (n : nat) :
  wrap 32 (entry_count gh) = Z.of_nat n ->
  n ≤ length rs ->
  Forall record_fits (take n rs) ->
  Archiver.list uh ue
    (Some (FileHeader_bytes gh ++ records_bytes rs ++ trailing)) =
  Ok {| shown_count := Z.of_nat n; lines := listed_line <$> take n rs |}.
Proof.
  intros Hcount Hn Hfits. unfold Archiver.list. cbn [ifstream_open].
  set (bs := FileHeader_bytes gh ++ records_bytes rs ++ trailing).
  fold (at_pos bs 0).
  rewrite (read_chunk bs 0 _ (FileHeader_bytes gh)
             (records_bytes rs ++ trailing))
    by (by rewrite ?length_FileHeader_bytes, ?drop_0).
  rewrite FileHeader_of_bytes_bytes. cbn [FileHeader_wrap entry_count].
  rewrite Hcount, Nat2Z.id.
  assert (Hd : drop sizeof_FileHeader bs =
               records_bytes (take n rs)
                 ++ (records_bytes (drop n rs) ++ trailing)).
  { unfold bs. rewrite drop_app_length' by (by rewrite length_FileHeader_bytes).
    apply take_drop_records. }
  pose proof (list_loop_records ue (take n rs) 0 bs sizeof_FileHeader _ 0
                Hfits Hd) as H.
  rewrite length_take_le, Nat.add_0_r in H by done.
  change (0 + sizeof_FileHeader) with sizeof_FileHeader. rewrite H.
  cbn [Archiver.list_loop]. by rewrite app_nil_r.
Qed.

(** X5 (listing, in general). On a stream made of any global header,
    records whose lengths fit the header fields, and anything after them,
    [list] prints the path and the content size of the first
    [entry_count] records, in order. The magic number, the checksums and
    whatever follows those records play no part. *)
Theorem list_reads_records (uh : FileHeader) (ue : nat -> EntryHeader)
  (gh : FileHeader) (rs : list entry_record) (trailing : list byte) (n : nat) :
  wrap 32 (entry_count gh) = Z.of_nat n ->
  n ≤ length rs ->
  Forall record_fits (take n rs) ->
  Archiver.list uh ue
    (Some (FileHeader_bytes gh ++ records_bytes rs ++ trailing)) =
  Ok {| shown_count := Z.of_nat n; lines := listed_line <$> take n rs |}.
Proof. apply list_on_container. Qed.

Lemma list_reads_records_witness :
  Archiver.list zero_header zero_entry
    (Some (FileHeader_bytes
             {| magic := 0; version := 7; entry_count := 2; created_at := 0;
                reserved := 9 |}
             ++ records_bytes
                  [legacy_record 6 test_b; packed_record 5 test_a;
                   packed_record 7 test_empty]
             ++ list_byte_of_string "trailing")) =
  Ok {| shown_count := Z.of_nat 2;
        lines := listed_line <$>
                   take 2 [legacy_record 6 test_b; packed_record 5 test_a;
                           packed_record 7 test_empty] |}.
Proof.
  apply (list_reads_records zero_header zero_entry
           {| magic := 0; version := 7; entry_count := 2; created_at := 0;
              reserved := 9 |}
           [legacy_record 6 test_b; packed_record 5 test_a;
            packed_record 7 test_empty]
           (list_byte_of_string "trailing") 2).
  - reflexivity.
  - simpl. lia.
  - repeat constructor.
Defined.

(* ===================================================================== *)
(** * Further properties of the writer                                    *)
(* ===================================================================== *)

Section Writer_facts.
Variable clock : nat -> Z.

Lemma write_entry_record now f :
  Archiver.write_entry now f = record_bytes (packed_record now f).
Proof.
  unfold Archiver.write_entry, record_bytes, record_header, EntryHeader_bytes.
  cbn [packed_record r_path r_content r_mtime r_checksum r_perms
       path_length content_size modified_time checksum permissions].
  rewrite length_list_byte_of_string. unfold wrap.
  rewrite (le_bytes_mod 4), !(le_bytes_mod 8). reflexivity.
Qed.

Lemma write_entries_records k files :
  Archiver.write_entries clock k files =
  records_bytes (timed packed_record clock k files).
Proof.
  revert k. induction files as [|f files IH]; intros k; [done|].
  cbn [Archiver.write_entries timed records_bytes].
  by rewrite IH, write_entry_record.
Qed.

Lemma pack_records files archive :
  Archiver.pack clock (Some files) true = Ok archive ->
  archive = FileHeader_bytes (written_global_header clock (length files))
              ++ records_bytes (timed packed_record clock 1 files).
Proof.
  intros H. rewrite (pack_inv clock files archive H).
  by rewrite write_entries_records.
Qed.

Section Timed.
Variable rec : Z -> source_file -> entry_record.
Hypothesis rec_path : forall now f, r_path (rec now f) = rel_path f.
Hypothesis rec_content : forall now f, r_content (rec now f) = content f.

Lemma length_timed k files : length (timed rec clock k files) = length files.
Proof.
  revert k. induction files as [|f files IH]; intros k; [done|].
  cbn [timed length]. by rewrite IH.
Qed.

Lemma timed_lookup k files i f :
  files !! i = Some f ->
  timed rec clock k files !! i = Some (rec (clock (k + i)) f).
Proof.
  revert k i. induction files as [|g files IH]; intros k i Hi; [done|].
  destruct i as [|i]; cbn [timed].
  - injection Hi as ->. by rewrite Nat.add_0_r.
  - change (timed rec clock (S k) files !! i
            = Some (rec (clock (k + S i)) f)).
    change (files !! i = Some f) in Hi.
    rewrite (IH (S k) i Hi). do 3 f_equal. lia.
Qed.

Lemma timed_take k files i :
  take i (timed rec clock k files) = timed rec clock k (take i files).
Proof.
  revert k i. induction files as [|g files IH]; intros k i.
  - by destruct i.
  - destruct i as [|i]; [done|]. cbn [timed take]. by rewrite IH.
Qed.

Lemma timed_drop k files i :
  drop i (timed rec clock k files) = timed rec clock (k + i) (drop i files).
Proof.
  revert k i. induction files as [|g files IH]; intros k i.
  - by destruct i.
  - destruct i as [|i]; cbn [timed drop].
    + by rewrite Nat.add_0_r.
    + rewrite IH. f_equal. lia.
Qed.

Lemma timed_sizes k files :
  sum_list_with record_size (timed rec clock k files) =
  sum_list_with entry_size files.
Proof.
  revert k. induction files as [|g files IH]; intros k; [done|].
  cbn [timed sum_list_with]. rewrite IH. unfold record_size, entry_size.
  by rewrite rec_path, rec_content.
Qed.

Lemma timed_fits k files :
  Forall fits files -> Forall record_fits (timed rec clock k files).
Proof.
  intros H. revert k. induction H as [|g files Hg _ IH]; intros k.
  - constructor.
  - cbn [timed]. constructor; [|apply IH].
    unfold record_fits. rewrite rec_path, rec_content. exact Hg.
Qed.

End Timed.

Lemma unpack_records_packed t k files rest fs :
  unpack_records t (timed packed_record clock k files ++ rest) fs =
  unpack_records t rest (extract_all t files fs).
Proof.
  revert k fs. induction files as [|f files IH]; intros k fs; [done|].
  cbn [timed app unpack_records packed_record r_content r_checksum].
  rewrite (wrap_small 32 (CRC32.calculate _)) by apply calculate_range.
  rewrite Z.eqb_refl, IH. reflexivity.
Qed.

Lemma lookup_outside_window (x t t' y : list byte) k :
  length t = length t' ->
  ¬ (length x ≤ k < length x + length t) ->
  (x ++ t ++ y) !! k = (x ++ t' ++ y) !! k.
Proof.
  intros Hl Hk. destruct (decide (k < length x)) as [Hlt|Hge].
  - by rewrite !lookup_app_l by done.
  - rewrite !lookup_app_r by lia. by rewrite Hl.
Qed.

Lemma FileHeader_bytes_times gh :
  FileHeader_bytes gh =
  (le_bytes 4 (magic gh) ++ le_bytes 2 (version gh)
     ++ le_bytes 4 (entry_count gh))
    ++ le_bytes 8 (created_at gh) ++ le_bytes 4 (reserved gh).
Proof. unfold FileHeader_bytes. by rewrite <- !app_assoc. Qed.

Lemma record_bytes_times r :
  record_bytes r =
  (le_bytes 4 (path_length (record_header r))
     ++ le_bytes 8 (content_size (record_header r)))
    ++ le_bytes 8 (r_mtime r)
    ++ (le_bytes 4 (r_checksum r) ++ le_bytes 2 (r_perms r)
          ++ list_byte_of_string (r_path r) ++ r_content r).
Proof.
  unfold record_bytes, EntryHeader_bytes.
  cbn [record_header modified_time checksum permissions].
  by rewrite <- !app_assoc.
Qed.

Lemma write_entries_outside_times clock' files :
  forall k k' j,
  (forall i, i < length files ->
     ¬ (sum_list_with entry_size (take i files) + 12 ≤ j
        < sum_list_with entry_size (take i files) + 20)) ->
  Archiver.write_entries clock k files !! j =
  Archiver.write_entries clock' k' files !! j.
Proof.
  induction files as [|f files IH]; intros k k' j Hj; [done|].
  cbn [Archiver.write_entries].
  pose proof (length_write_entry (clock k) f) as L1.
  pose proof (length_write_entry (clock' k') f) as L2.
  destruct (decide (j < entry_size f)) as [Hlt|Hge].
  - rewrite !lookup_app_l by lia.
    rewrite !write_entry_record, !record_bytes_times.
    cbn [packed_record r_path r_content r_mtime r_checksum r_perms].
    apply lookup_outside_window; [by rewrite !length_le_bytes|].
    rewrite length_app, !length_le_bytes.
    specialize (Hj 0 ltac:(simpl; lia)). simpl in Hj. lia.
  - rewrite !lookup_app_r by lia. rewrite L1, L2. apply IH.
    intros i Hi. specialize (Hj (S i) ltac:(simpl; lia)).
    cbn [take sum_list_with] in Hj. lia.
Qed.

End Writer_facts.

(** X6 (global header). The global header [pack] stores reads back as the
    magic number 'KAAR', version 1, the number of files, the first reading
    of the clock (taken before any entry is written) and a reserved field
    of zero, and it takes the first 22 bytes of the container. *)
Theorem pack_global_header (clock : nat -> Z) (files : list source_file)
  (archive : list byte) :
  Archiver.pack clock (Some files) true = Ok archive ->
  take 4 archive = list_byte_of_string "KAAR" ∧
  stored_header archive =
    {| magic := KAR_MAGIC; version := 1;
       entry_count := wrap 32 (Z.of_nat (length files));
       created_at := wrap 64 (clock 0);
       reserved := 0 |} ∧
  sizeof_FileHeader ≤ length archive.
Proof.
  intros Hpack. split; [|split].
  - rewrite (pack_inv clock files archive Hpack).
    unfold FileHeader_bytes. rewrite <- !app_assoc.
    rewrite take_app_length' by (by rewrite length_le_bytes).
    reflexivity.
  - rewrite (stored_header_written clock files archive Hpack).
    unfold FileHeader_wrap. cbn [written_global_header magic version
      entry_count created_at reserved]. by rewrite !wrap_wrap.
  - rewrite (pack_inv clock files archive Hpack), length_app,
      length_FileHeader_bytes. lia.
Qed.

Lemma pack_global_header_witness :
  take 4 test_archive = list_byte_of_string "KAAR" ∧
  stored_header test_archive =
    {| magic := KAR_MAGIC; version := 1;
       entry_count := wrap 32 (Z.of_nat (length test_files));
       created_at := wrap 64 (test_clock 0);
       reserved := 0 |} ∧
  sizeof_FileHeader ≤ length test_archive.
Proof. apply (pack_global_header test_clock test_files). reflexivity. Defined.

(** X7 (verbatim storage). In the container [pack] makes, the record of
    the [i]-th file holds, right after its 26-byte header, the bytes of the
    relative path and then the bytes of the file, unchanged, and the
    stored [path_length] and [content_size] are their lengths. *)
Theorem pack_stores_verbatim (clock : nat -> Z) (files : list source_file)
  (archive : list byte) (i : nat) (f : source_file) :
  Archiver.pack clock (Some files) true = Ok archive ->
  files !! i = Some f ->
  fits f ->
  take (String.length (rel_path f))
    (drop (entry_offset files i + sizeof_EntryHeader) archive)
    = list_byte_of_string (rel_path f) ∧
  take (length (content f)) (drop (content_offset files i f) archive)
    = content f ∧
  path_length (stored_entry archive files i)
    = Z.of_nat (String.length (rel_path f)) ∧
  content_size (stored_entry archive files i)
    = Z.of_nat (length (content f)).
Proof.
  intros Hpack Hi Hf.
  destruct (pack_split clock files archive i f Hpack Hi)
    as (front & back & Ha & _ & _ & Hlen).
  destruct (written_header_lengths (clock (S i)) f Hf) as [Hp Hc].
  rewrite (stored_entry_written clock files archive i f Hpack Hi).
  cbn [EntryHeader_wrap path_length content_size] in *.
  rewrite length_list_byte_of_string in Hp.
  assert (Hd : drop (entry_offset files i) archive =
               EntryHeader_bytes (written_header (clock (S i)) f)
                 ++ list_byte_of_string (rel_path f) ++ content f ++ back).
  { rewrite <- Hlen, Ha. apply drop_app_length. }
  pose proof (length_EntryHeader_bytes (written_header (clock (S i)) f)) as Le.
  split; [|split; [|done]].
  - rewrite <- Le. rewrite (drop_advance _ _ _ _ Hd).
    apply take_app_length'. by rewrite length_list_byte_of_string.
  - unfold content_offset.
    rewrite <- Le, <- (length_list_byte_of_string (rel_path f)).
    rewrite (drop_advance _ _ _ _ (drop_advance _ _ _ _ Hd)).
    by apply take_app_length'.
Qed.

Lemma pack_stores_verbatim_witness :
  take (String.length (rel_path test_b))
    (drop (entry_offset test_files 1 + sizeof_EntryHeader) test_archive)
    = list_byte_of_string (rel_path test_b) ∧
  take (length (content test_b))
    (drop (content_offset test_files 1 test_b) test_archive)
    = content test_b ∧
  path_length (stored_entry test_archive test_files 1)
    = Z.of_nat (String.length (rel_path test_b)) ∧
  content_size (stored_entry test_archive test_files 1)
    = Z.of_nat (length (content test_b)).
Proof.
  apply (pack_stores_verbatim test_clock test_files test_archive 1 test_b).
  - reflexivity.
  - reflexivity.
  - split; vm_compute; reflexivity.
Defined.

(** X8 (packing twice). Two runs of [pack] on the same files, whatever the
    clocks read, give containers of the same length that agree at every
    position outside [created_at] of the global header and
    [modified_time] of the entry headers. *)
Theorem pack_differs_in_times_only (clock1 clock2 : nat -> Z)
  (files : list source_file) (a1 a2 : list byte) :
  Archiver.pack clock1 (Some files) true = Ok a1 ->
  Archiver.pack clock2 (Some files) true = Ok a2 ->
  length a1 = length a2 ∧
  forall k, ¬ time_field files k -> a1 !! k = a2 !! k.
Proof.
  intros H1 H2. apply pack_inv in H1, H2. split.
  - by rewrite H1, H2, !length_app, !length_FileHeader_bytes,
      !length_write_entries.
  - intros k Hk. rewrite H1, H2.
    destruct (decide (k < sizeof_FileHeader)) as [Hlt|Hge].
    + rewrite !lookup_app_l by (by rewrite length_FileHeader_bytes).
      rewrite !FileHeader_bytes_times.
      cbn [written_global_header magic version entry_count created_at reserved].
      apply lookup_outside_window; [by rewrite !length_le_bytes|].
      rewrite !length_app, !length_le_bytes. intros Hw. apply Hk. left. lia.
    + rewrite !lookup_app_r by (rewrite length_FileHeader_bytes; lia).
      rewrite !length_FileHeader_bytes.
      apply write_entries_outside_times. intros i Hi Hw. apply Hk. right.
      exists i. split; [done|]. unfold entry_offset. lia.
Qed.

Lemma pack_differs_in_times_only_witness :
  length test_archive =
    length (FileHeader_bytes (written_global_header (fun _ => 0%Z) 3)
              ++ Archiver.write_entries (fun _ => 0%Z) 1 test_files) ∧
  forall k, ¬ time_field test_files k ->
    test_archive !! k =
    (FileHeader_bytes (written_global_header (fun _ => 0%Z) 3)
       ++ Archiver.write_entries (fun _ => 0%Z) 1 test_files) !! k.
Proof.
  apply (pack_differs_in_times_only test_clock (fun _ => 0%Z) test_files);
    reflexivity.
Defined.

(* ===================================================================== *)
(** * What a changed byte does                                            *)
(* ===================================================================== *)

Section Changed_bytes.
Variable clock : nat -> Z.

Lemma insert_window (x t y : list byte) a j b :
  length x = a -> j < length t ->
  <[a + j := b]> (x ++ t ++ y) = x ++ <[j := b]> t ++ y.
Proof. intros <- Hj. by rewrite insert_app_r, insert_app_l. Qed.

Lemma le_bytes_insert n z j b :
  <[j := b]> (le_bytes n z) = le_bytes n (le_value (<[j := b]> (le_bytes n z))).
Proof.
  symmetry. etransitivity; [|apply le_bytes_le_value].
  by rewrite length_insert, length_le_bytes.
Qed.

Lemma insert_record (H : list byte) rs i r r' k b :
  rs !! i = Some r ->
  k < record_size r ->
  record_bytes r' = <[k := b]> (record_bytes r) ->
  <[length H + sum_list_with record_size (take i rs) + k := b]>
    (H ++ records_bytes rs) =
  H ++ records_bytes (<[i := r']> rs).
Proof.
  intros Hi Hk Hr'.
  assert (Hlt : i < length rs) by (by eapply lookup_lt_Some).
  rewrite (insert_take_drop rs i r') by done.
  rewrite <- (take_drop_middle rs i r Hi) at 2.
  rewrite !records_bytes_app. cbn [records_bytes].
  rewrite <- Nat.add_assoc, insert_app_r, <- length_records_bytes.
  rewrite insert_app_r, insert_app_l by (by rewrite length_record_bytes).
  by rewrite Hr'.
Qed.

Lemma pack_insert_record files archive i f k b r' :
  Archiver.pack clock (Some files) true = Ok archive ->
  files !! i = Some f ->
  k < entry_size f ->
  record_bytes r' = <[k := b]> (record_bytes (packed_record (clock (S i)) f)) ->
  <[entry_offset files i + k := b]> archive =
  FileHeader_bytes (written_global_header clock (length files))
    ++ records_bytes (<[i := r']> (timed packed_record clock 1 files)).
Proof.
  intros Hpack Hi Hk Hr'. rewrite (pack_records clock files archive Hpack).
  unfold entry_offset.
  rewrite <- (length_FileHeader_bytes (written_global_header clock (length files))).
  rewrite <- (timed_sizes clock packed_record (fun _ _ => eq_refl)
                (fun _ _ => eq_refl) 1 (take i files)).
  rewrite <- timed_take.
  apply (insert_record _ _ _ (packed_record (clock (S i)) f)); [|done|done].
  by rewrite (timed_lookup clock packed_record 1 files i f Hi).
Qed.

Lemma timed_insert_file (rec : Z -> source_file -> entry_record) files :
  forall k i f',
  <[i := rec (clock (k + i)) f']> (timed rec clock k files) =
  timed rec clock k (<[i := f']> files).
Proof.
  induction files as [|g files IH]; intros k i f'; [done|].
  destruct i as [|i]; cbn [timed].
  - change (rec (clock (k + 0)) f' :: timed rec clock (S k) files =
            rec (clock k) f' :: timed rec clock (S k) files).
    by rewrite Nat.add_0_r.
  - change (rec (clock k) g
              :: <[i := rec (clock (k + S i)) f']> (timed rec clock (S k) files)
            = rec (clock k) g :: timed rec clock (S k) (<[i := f']> files)).
    replace (k + S i) with (S k + i) by lia. by rewrite IH.
Qed.

Lemma timed_ext (rec : Z -> source_file -> entry_record)
  (clock1 clock2 : nat -> Z) files :
  forall k,
  (forall n, k ≤ n < k + length files -> clock1 n = clock2 n) ->
  timed rec clock1 k files = timed rec clock2 k files.
Proof.
  induction files as [|g files IH]; intros k H; [done|].
  cbn [timed]. rewrite (H k) by (simpl; lia). f_equal.
  apply IH. intros n Hn. apply H. simpl. lia.
Qed.

Lemma timed_insert_clock (rec : Z -> source_file -> entry_record) files :
  forall k i f c',
  files !! i = Some f ->
  <[i := rec c' f]> (timed rec clock k files) =
  timed rec (fun n => if decide (n = k + i) then c' else clock n) k files.
Proof.
  induction files as [|g files IH]; intros k i f c' Hi; [done|].
  destruct i as [|i]; cbn [timed].
  - injection Hi as ->.
    change (rec c' f :: timed rec clock (S k) files =
            rec (if decide (k = k + 0) then c' else clock k) f
              :: timed rec (fun n => if decide (n = k + 0) then c' else clock n)
                   (S k) files).
    rewrite decide_True by lia. f_equal.
    apply timed_ext. intros n Hn. by rewrite decide_False by lia.
  - change (files !! i = Some f) in Hi.
    change (rec (clock k) g :: <[i := rec c' f]> (timed rec clock (S k) files)
            = rec (if decide (k = k + S i) then c' else clock k) g
                :: timed rec (fun n => if decide (n = k + S i) then c' else clock n)
                     (S k) files).
    rewrite decide_False by lia. f_equal.
    rewrite (IH (S k) i f c' Hi).
    apply timed_ext. intros n Hn.
    destruct (decide (n = S k + i)), (decide (n = k + S i)); (done || lia).
Qed.

Lemma pack_of_records clock' files :
  Archiver.pack clock' (Some files) true =
  Ok (FileHeader_bytes (written_global_header clock' (length files))
        ++ records_bytes (timed packed_record clock' 1 files)).
Proof.
  unfold Archiver.pack. cbn [negb]. by rewrite write_entries_records.
Qed.

Lemma record_bytes_checksum r :
  record_bytes r =
  (le_bytes 4 (path_length (record_header r))
     ++ le_bytes 8 (content_size (record_header r))
     ++ le_bytes 8 (r_mtime r))
    ++ le_bytes 4 (r_checksum r)
    ++ (le_bytes 2 (r_perms r)
          ++ list_byte_of_string (r_path r) ++ r_content r).
Proof.
  unfold record_bytes, EntryHeader_bytes.
  cbn [record_header modified_time checksum permissions].
  by rewrite <- !app_assoc.
Qed.

Lemma unpack_changed_record uh ue files archive i f k b r' target fs :
  Archiver.pack clock (Some files) true = Ok archive ->
  (Z.of_nat (length files) < 2 ^ 32)%Z ->
  Forall fits files ->
  files !! i = Some f ->
  k < entry_size f ->
  record_fits r' ->
  record_bytes r' = <[k := b]> (record_bytes (packed_record (clock (S i)) f)) ->
  Archiver.unpack uh ue (Some (<[entry_offset files i + k := b]> archive))
    target fs =
  unpack_records target
    (r' :: timed packed_record clock (S (S i)) (drop (S i) files))
    (extract_all target (take i files) fs).
Proof.
  intros Hpack Hn Hfits Hi Hk Hr' Hbytes.
  assert (Hlt : i < length files) by (by eapply lookup_lt_Some).
  pose proof (timed_fits clock packed_record (fun _ _ => eq_refl)
                (fun _ _ => eq_refl) 1 files Hfits) as Hrs.
  pose proof (length_timed clock packed_record 1 files) as Lrs.
  rewrite (pack_insert_record files archive i f k b r' Hpack Hi Hk Hbytes).
  rewrite <- (app_nil_r (records_bytes _)).
  rewrite (unpack_on_container uh ue _ _ [] (length files) target fs).
  - rewrite take_ge by (by rewrite length_insert, Lrs).
    rewrite insert_take_drop by (by rewrite Lrs).
    rewrite timed_take, timed_drop, unpack_records_packed.
    by replace (1 + S i) with (S (S i)) by lia.
  - reflexivity.
  - cbn [written_global_header entry_count]. rewrite wrap_wrap.
    apply wrap_small. lia.
  - by rewrite length_insert, Lrs.
  - rewrite take_ge by (by rewrite length_insert, Lrs).
    by apply Forall_insert.
Qed.

End Changed_bytes.

Section Changed_bytes_results.
Variable clock : nat -> Z.

Lemma lookup_record (H : list byte) rs i r k :
  rs !! i = Some r ->
  k < record_size r ->
  (H ++ records_bytes rs) !! (length H + sum_list_with record_size (take i rs) + k)
  = record_bytes r !! k.
Proof.
  intros Hi Hk. rewrite <- (take_drop_middle rs i r Hi) at 2.
  rewrite records_bytes_app. cbn [records_bytes].
  rewrite <- Nat.add_assoc, lookup_app_r by lia.
  rewrite <- length_records_bytes, lookup_app_r by lia.
  rewrite lookup_app_l by (rewrite length_record_bytes; lia).
  f_equal. lia.
Qed.

Lemma pack_lookup_record files archive i f k :
  Archiver.pack clock (Some files) true = Ok archive ->
  files !! i = Some f ->
  k < entry_size f ->
  archive !! (entry_offset files i + k) =
  record_bytes (packed_record (clock (S i)) f) !! k.
Proof.
  intros Hpack Hi Hk. rewrite (pack_records clock files archive Hpack).
  unfold entry_offset.
  rewrite <- (length_FileHeader_bytes (written_global_header clock (length files))).
  rewrite <- (timed_sizes clock packed_record (fun _ _ => eq_refl)
                (fun _ _ => eq_refl) 1 (take i files)).
  rewrite <- timed_take.
  apply lookup_record; [|done].
  by rewrite (timed_lookup clock packed_record 1 files i f Hi).
Qed.

Lemma unpack_pack_any uh ue clock' files t fs :
  (Z.of_nat (length files) < 2 ^ 32)%Z ->
  Forall fits files ->
  Archiver.unpack uh ue
    (Some (FileHeader_bytes (written_global_header clock' (length files))
             ++ records_bytes (timed packed_record clock' 1 files))) t fs =
  (extract_all t files fs, Ok tt).
Proof.
  intros Hn Hfits. eapply unpack_pack; [apply pack_of_records|done|done].
Qed.

Lemma list_pack_any uh ue clock' files :
  (Z.of_nat (length files) < 2 ^ 32)%Z ->
  Forall fits files ->
  Archiver.list uh ue
    (Some (FileHeader_bytes (written_global_header clock' (length files))
             ++ records_bytes (timed packed_record clock' 1 files))) =
  Ok {| shown_count := Z.of_nat (length files);
        lines := (fun f => (rel_path f, Z.of_nat (length (content f))))
                   <$> files |}.
Proof.
  intros Hn Hfits. eapply list_pack; [apply pack_of_records|done|done].
Qed.

(** A changed byte of a time field gives the container [pack] makes under
    another clock. *)
Lemma changed_time_is_other_clock files archive k b :
  Archiver.pack clock (Some files) true = Ok archive ->
  time_field files k ->
  exists clock',
    <[k := b]> archive =
    FileHeader_bytes (written_global_header clock' (length files))
      ++ records_bytes (timed packed_record clock' 1 files).
Proof.
  intros Hpack [Hk|(i & Hi & Hk)].
  - set (c' := le_value (<[k - 10 := b]> (le_bytes 8 (wrap 64 (clock 0))))).
    exists (fun n => if decide (n = 0) then c' else clock n).
    rewrite (pack_records clock files archive Hpack).
    rewrite insert_app_l by (rewrite length_FileHeader_bytes; unfold sizeof_FileHeader; lia).
    rewrite (timed_ext packed_record
               (fun n => if decide (n = 0) then c' else clock n) clock files 1)
      by (intros n Hn; by rewrite decide_False by lia).
    f_equal. rewrite !FileHeader_bytes_times.
    cbn [written_global_header magic version entry_count created_at reserved].
    rewrite decide_True by done.
    replace k with (10 + (k - 10)) at 1 by lia.
    rewrite insert_window
      by (rewrite ?length_app, !length_le_bytes; lia).
    rewrite le_bytes_insert. fold c'. unfold wrap at 3.
    by rewrite (le_bytes_mod 8).
  - destruct (lookup_lt_is_Some_2 files i Hi) as [f Hf].
    set (j := k - entry_offset files i - 12).
    set (c' := le_value (<[j := b]> (le_bytes 8 (clock (S i))))).
    exists (fun n => if decide (n = 1 + i) then c' else clock n).
    replace k with (entry_offset files i + (12 + j)) by (unfold j; lia).
    rewrite (pack_insert_record clock files archive i f (12 + j) b
               (packed_record c' f) Hpack Hf).
    + rewrite (timed_insert_clock clock packed_record files 1 i f c' Hf).
      by f_equal.
    + unfold entry_size, sizeof_EntryHeader, j. lia.
    + rewrite !record_bytes_times.
      cbn [packed_record r_path r_content r_mtime r_checksum r_perms].
      rewrite insert_window
        by (rewrite ?length_app, !length_le_bytes; unfold j; lia).
      by rewrite le_bytes_insert.
Qed.

End Changed_bytes_results.

(** X9 (a changed checksum field). In a container made by [pack],
    replacing any one of the four bytes of the stored checksum of an entry
    by a different byte makes [unpack] end with the CRC mismatch error for
    that entry, the stored value now differing from the checksum of the
    content; the entries before it have been written, that entry and the
    later ones have not. *)
Theorem unpack_detects_changed_checksum (clock : nat -> Z) (uh : FileHeader)
  (ue : nat -> EntryHeader) (files : list source_file) (archive : list byte)
  (i : nat) (f : source_file) (j : nat) (old b : byte)
  (target : string) (fs : gmap string file) :
  Archiver.pack clock (Some files) true = Ok archive ->
  (Z.of_nat (length files) < 2 ^ 32)%Z ->
  Forall fits files ->
  files !! i = Some f ->
  j < 4 ->
  archive !! (entry_offset files i + 20 + j) = Some old ->
  b ≠ old ->
  exists stored,
    stored ≠ CRC32.calculate (content f) ∧
    Archiver.unpack uh ue
      (Some (<[entry_offset files i + 20 + j := b]> archive)) target fs =
    (extract_all target (take i files) fs,
     Err (CrcMismatch (rel_path f) stored (CRC32.calculate (content f)))).
Proof.
  intros Hpack Hn Hfits Hi Hj Hold Hb.
  set (crc := CRC32.calculate (content f)).
  set (stored := le_value (<[j := b]> (le_bytes 4 crc))).
  assert (Hf : fits f) by exact (Forall_lookup_1 _ _ _ _ Hfits Hi).
  assert (Hk : 20 + j < entry_size f)
    by (unfold entry_size, sizeof_EntryHeader; lia).
  assert (Hl : le_bytes 4 crc !! j = Some old).
  { rewrite <- Hold, <- Nat.add_assoc.
    rewrite (pack_lookup_record clock files archive i f (20 + j) Hpack Hi Hk).
    rewrite record_bytes_checksum.
    cbn [packed_record r_path r_content r_mtime r_checksum r_perms].
    rewrite lookup_app_r by (rewrite !length_app, !length_le_bytes; lia).
    rewrite !length_app, !length_le_bytes.
    rewrite lookup_app_l by (rewrite length_le_bytes; lia).
    f_equal. lia. }
  assert (Hrange : (0 <= stored < 2 ^ 32)%Z).
  { pose proof (le_value_range (<[j := b]> (le_bytes 4 crc))) as Hr.
    by rewrite length_insert, length_le_bytes in Hr. }
  assert (Hne : stored ≠ crc).
  { intros E.
    assert (Hins : <[j := b]> (le_bytes 4 crc) = le_bytes 4 crc).
    { rewrite le_bytes_insert. fold stored. by rewrite E. }
    apply (f_equal (fun l => l !! j)) in Hins.
    rewrite list_lookup_insert_eq in Hins by (by rewrite length_le_bytes).
    rewrite Hl in Hins. by injection Hins. }
  exists stored. split; [done|].
  rewrite <- Nat.add_assoc.
  rewrite (unpack_changed_record clock uh ue files archive i f (20 + j) b
             {| r_path := rel_path f; r_content := content f;
                r_mtime := clock (S i); r_checksum := stored; r_perms := 420 |}
             target fs Hpack Hn Hfits Hi Hk Hf).
  - cbn [unpack_records r_content r_checksum r_path].
    rewrite (wrap_small 32 stored) by done. fold crc.
    by destruct (Z.eqb_spec crc stored) as [E|_]; [symmetry in E|].
  - rewrite !record_bytes_checksum.
    cbn [packed_record record_header r_path r_content r_mtime r_checksum
         r_perms path_length content_size].
    rewrite insert_window by (by rewrite ?length_app, !length_le_bytes).
    by rewrite le_bytes_insert.
Qed.

Lemma unpack_detects_changed_checksum_witness :
  exists stored,
    stored ≠ CRC32.calculate (content test_b) ∧
    Archiver.unpack zero_header zero_entry
      (Some (<[entry_offset test_files 1 + 20 + 3 := "000"%byte]> test_archive))
      "out" ∅ =
    (extract_all "out" (take 1 test_files) ∅,
     Err (CrcMismatch (rel_path test_b) stored
            (CRC32.calculate (content test_b)))).
Proof.
  apply (unpack_detects_changed_checksum test_clock zero_header zero_entry
           test_files test_archive 1 test_b 3 "058"%byte "000"%byte "out" ∅).
  - reflexivity.
  - simpl. lia.
  - exact test_files_fit.
  - reflexivity.
  - lia.
  - vm_compute. reflexivity.
  - discriminate.
Defined.

(** X10 (the times are not protected). In a container made by [pack], a
    change of any byte of [created_at] or of a [modified_time] gives the
    container [pack] would have made under another clock; [unpack] and
    [list] do on it exactly what they do on the original. *)
Theorem time_bytes_are_ignored (clock : nat -> Z) (uh : FileHeader)
  (ue : nat -> EntryHeader) (files : list source_file) (archive : list byte)
  (k : nat) (b : byte) (target : string) (fs : gmap string file) :
  Archiver.pack clock (Some files) true = Ok archive ->
  (Z.of_nat (length files) < 2 ^ 32)%Z ->
  Forall fits files ->
  time_field files k ->
  (exists clock',
     Archiver.pack clock' (Some files) true = Ok (<[k := b]> archive)) ∧
  Archiver.unpack uh ue (Some (<[k := b]> archive)) target fs =
    Archiver.unpack uh ue (Some archive) target fs ∧
  Archiver.list uh ue (Some (<[k := b]> archive)) =
    Archiver.list uh ue (Some archive).
Proof.
  intros Hpack Hn Hfits Hk.
  destruct (changed_time_is_other_clock clock files archive k b Hpack Hk)
    as [clock' E].
  split; [|split].
  - exists clock'. by rewrite pack_of_records, E.
  - rewrite E, unpack_pack_any by done.
    by rewrite (unpack_pack clock uh ue files archive target fs Hpack Hn Hfits).
  - rewrite E, list_pack_any by done.
    by rewrite (list_pack clock uh ue files archive Hpack Hn Hfits).
Qed.

Lemma test_time_field : time_field test_files (entry_offset test_files 1 + 15).
Proof. right. exists 1. simpl. lia. Defined.

Lemma time_bytes_are_ignored_witness :
  (exists clock',
     Archiver.pack clock' (Some test_files) true =
     Ok (<[entry_offset test_files 1 + 15 := "255"%byte]> test_archive)) ∧
  Archiver.unpack zero_header zero_entry
    (Some (<[entry_offset test_files 1 + 15 := "255"%byte]> test_archive))
    "out" ∅ =
    Archiver.unpack zero_header zero_entry (Some test_archive) "out" ∅ ∧
  Archiver.list zero_header zero_entry
    (Some (<[entry_offset test_files 1 + 15 := "255"%byte]> test_archive)) =
    Archiver.list zero_header zero_entry (Some test_archive).
Proof.
  apply (time_bytes_are_ignored test_clock zero_header zero_entry test_files
           test_archive (entry_offset test_files 1 + 15) "255"%byte "out" ∅).
  - reflexivity.
  - simpl. lia.
  - exact test_files_fit.
  - exact test_time_field.
Defined.



(** X12 ([list] verifies nothing). In a container made by [pack], a change
    of any byte of the content of an entry, which [unpack] refuses, leaves
    what [list] prints as it was: every path with its size. *)
Theorem list_ignores_content (clock : nat -> Z) (uh : FileHeader)
  (ue : nat -> EntryHeader) (files : list source_file) (archive : list byte)
  (i : nat) (f : source_file) (j : nat) (b : byte) :
  Archiver.pack clock (Some files) true = Ok archive ->
  (Z.of_nat (length files) < 2 ^ 32)%Z ->
  Forall fits files ->
  files !! i = Some f ->
  j < length (content f) ->
  Archiver.list uh ue (Some (<[content_offset files i f + j := b]> archive)) =
    Ok {| shown_count := Z.of_nat (length files);
          lines := (fun g => (rel_path g, Z.of_nat (length (content g))))
                     <$> files |} ∧
  Archiver.list uh ue (Some (<[content_offset files i f + j := b]> archive)) =
    Archiver.list uh ue (Some archive).
Proof.
  intros Hpack Hn Hfits Hi Hj.
  assert (Hf : fits f) by exact (Forall_lookup_1 _ _ _ _ Hfits Hi).
  set (r' := {| r_path := rel_path f; r_content := <[j := b]> (content f);
                r_mtime := clock (S i);
                r_checksum := CRC32.calculate (content f); r_perms := 420 |}).
  pose proof (length_timed clock packed_record 1 files) as Lrs.
  pose proof (timed_fits clock packed_record (fun _ _ => eq_refl)
                (fun _ _ => eq_refl) 1 files Hfits) as Hrs.
  assert (E : Archiver.list uh ue
                (Some (<[content_offset files i f + j := b]> archive)) =
              Ok {| shown_count := Z.of_nat (length files);
                    lines := (fun g => (rel_path g, Z.of_nat (length (content g))))
                               <$> files |}).
  { unfold content_offset. rewrite <- !Nat.add_assoc.
    rewrite (pack_insert_record clock files archive i f _ b r' Hpack Hi).
    - rewrite <- (app_nil_r (records_bytes _)).
      rewrite (list_on_container uh ue _ _ [] (length files)).
      + rewrite take_ge by (by rewrite length_insert, Lrs).
        rewrite list_fmap_insert, list_insert_id.
        * do 2 f_equal. clear. generalize 1.
          induction files as [|g files IH]; intros k; [done|].
          cbn [timed fmap list_fmap]. f_equal. apply IH.
        * rewrite list_lookup_fmap,
            (timed_lookup clock packed_record 1 files i f Hi).
          unfold listed_line, r'. cbn. by rewrite length_insert.
      + cbn [written_global_header entry_count]. rewrite wrap_wrap.
        apply wrap_small. lia.
      + by rewrite length_insert, Lrs.
      + rewrite take_ge by (by rewrite length_insert, Lrs).
        apply Forall_insert; [done|].
        unfold record_fits, r'. cbn. rewrite length_insert. exact Hf.
    - unfold entry_size. lia.
    - unfold record_bytes, record_header, r'.
      cbn [packed_record r_path r_content r_mtime r_checksum r_perms].
      rewrite length_insert.
      assert (Hins : forall (l1 l2 : list byte) a n x,
                length l1 = a -> <[a + n := x]> (l1 ++ l2) = l1 ++ <[n := x]> l2).
      { intros l1 l2 a n x <-. apply insert_app_r. }
      rewrite Hins by apply length_EntryHeader_bytes.
      by rewrite Hins by apply length_list_byte_of_string. }
  split; [done|].
  by rewrite E, (list_pack clock uh ue files archive Hpack Hn Hfits).
Qed.

Lemma list_ignores_content_witness :
  Archiver.list zero_header zero_entry
    (Some (<[content_offset test_files 1 test_b + 0 := "W"%byte]> test_archive)) =
    Ok {| shown_count := Z.of_nat (length test_files);
          lines := (fun g => (rel_path g, Z.of_nat (length (content g))))
                     <$> test_files |} ∧
  Archiver.list zero_header zero_entry
    (Some (<[content_offset test_files 1 test_b + 0 := "W"%byte]> test_archive)) =
    Archiver.list zero_header zero_entry (Some test_archive).
Proof.
  apply (list_ignores_content test_clock zero_header zero_entry test_files
           test_archive 1 test_b 0 "W"%byte).
  - reflexivity.
  - simpl. lia.
  - exact test_files_fit.
  - reflexivity.
  - simpl. lia.
Defined.

(* ===================================================================== *)
(** * The reader never removes                                            *)
(* ===================================================================== *)

Section Reader_facts.
Variable uninit_entry : nat -> EntryHeader.

Lemma write_file_keeps q out_path buffer m (fs : gmap string file) :
  is_Some (fs !! q) -> is_Some (write_file out_path buffer m fs !! q).
Proof.
  intros H. unfold write_file.
  destruct (decide (out_path = q)) as [->|Hne].
  - rewrite lookup_insert_eq. by eexists.
  - by rewrite lookup_insert_ne.
Qed.

Lemma unpack_loop_keeps n :
  forall i s t fs q,
  is_Some (fs !! q) ->
  is_Some ((Archiver.unpack_loop uninit_entry n i s t fs).1 !! q).
Proof.
  induction n as [|n IH]; intros i s t fs q H; cbn [Archiver.unpack_loop].
  - done.
  - repeat match goal with
           | |- context [match ?r with pair _ _ => _ end] => destruct r
           end.
    destruct (negb _); [done|]. apply IH. by apply write_file_keeps.
Qed.


End Reader_facts.

(** X13 ([unpack] removes nothing). Whatever the archive, no path that
    holds a file before [unpack] is without one after it; and when
    [unpack] ends because the archive cannot be opened or because the
    magic number is wrong, the file system is as it was. *)
Theorem unpack_removes_nothing (uh : FileHeader) (ue : nat -> EntryHeader)
  (archive_file : option (list byte)) (target : string)
  (fs : gmap string file) :
  (forall q, is_Some (fs !! q) ->
     is_Some ((Archiver.unpack uh ue archive_file target fs).1 !! q)) ∧
  ((Archiver.unpack uh ue archive_file target fs).2 = Err CannotOpenArchive ∨
   (Archiver.unpack uh ue archive_file target fs).2 = Err WrongMagic ->
   (Archiver.unpack uh ue archive_file target fs).1 = fs).
Proof.
  unfold Archiver.unpack. destruct (failbit _); [by split|].
  destruct (read _ _ _) as [mem s]. destruct (negb _); [by split|].
  split.
  - intros q Hq. by apply unpack_loop_keeps.
  - intros [H|H]; apply unpack_loop_errors in H as (p & x & y & E & _);
      discriminate.
Qed.

(* ===================================================================== *)
(** * The single-file archiver                                            *)
(* ===================================================================== *)

Section Legacy_facts.
Variable clock : nat -> Z.
Variable uninit_header : FileHeader.
Variable uninit_entry : nat -> EntryHeader.

Lemma legacy_write_entry_record now f :
  Legacy.write_entry now f = record_bytes (legacy_record now f).
Proof.
  unfold Legacy.write_entry, record_bytes, record_header, EntryHeader_bytes.
  cbn [legacy_record r_path r_content r_mtime r_checksum r_perms
       path_length content_size modified_time checksum permissions].
  rewrite length_list_byte_of_string. unfold wrap.
  rewrite (le_bytes_mod 4), !(le_bytes_mod 8). reflexivity.
Qed.

Lemma legacy_pack_records files :
  Legacy.pack clock (Some files) true =
  Ok (FileHeader_bytes (written_global_header clock (length files))
        ++ records_bytes (timed legacy_record clock 1 files)).
Proof.
  unfold Legacy.pack. cbn [negb]. do 2 f_equal.
  generalize 1. induction files as [|f files IH]; intros k; [done|].
  cbn [Legacy.write_entries timed records_bytes].
  by rewrite IH, legacy_write_entry_record.
Qed.

Lemma legacy_unpack_loop_records rs :
  forall i bs p rest t fs,
  Forall record_fits rs ->
  drop p bs = records_bytes rs ++ rest ->
  Legacy.unpack_loop uninit_entry (length rs) i (at_pos bs p) t fs =
  fold_left (fun acc r => write_record t r acc) rs fs.
Proof.
  induction rs as [|r rs IH]; intros i bs p rest t fs Hfits Hd; [done|].
  apply Forall_cons in Hfits as [Hr Hfits].
  cbn [records_bytes] in Hd. unfold record_bytes in Hd.
  rewrite <- !app_assoc in Hd.
  destruct (record_header_lengths r Hr) as [Hp Hc].
  cbn [length Legacy.unpack_loop fold_left].
  rewrite (legacy_read_entry_record uninit_entry _ _ _ _ _ _ _ _ _ Hd Hp Hc).
  apply drop_record in Hd.
  rewrite (IH _ _ _ _ _ _ Hfits Hd).
  cbn [record_header permissions]. unfold write_record.
  by rewrite string_of_list_byte_of_string.
Qed.

Lemma legacy_unpack_records gh rs (trailing : list byte) n t fs :
  wrap 32 (magic gh) = Legacy.MAGIC ->
  wrap 32 (entry_count gh) = Z.of_nat n ->
  n ≤ length rs ->
  Forall record_fits (take n rs) ->
  Legacy.unpack uninit_header uninit_entry
    (Some (FileHeader_bytes gh ++ records_bytes rs ++ trailing)) t fs =
  (fold_left (fun acc r => write_record t r acc) (take n rs) fs, Ok tt).
Proof.
  intros Hmagic Hcount Hn Hfits. unfold Legacy.unpack.
  cbn [ifstream_open failbit].
  set (bs := FileHeader_bytes gh ++ records_bytes rs ++ trailing).
  fold (at_pos bs 0).
  rewrite (read_chunk bs 0 _ (FileHeader_bytes gh)
             (records_bytes rs ++ trailing))
    by (by rewrite ?length_FileHeader_bytes, ?drop_0).
  rewrite FileHeader_of_bytes_bytes. cbn [FileHeader_wrap magic entry_count].
  rewrite Hmagic, Hcount, Z.eqb_refl, Nat2Z.id. cbn [negb]. f_equal.
  rewrite <- (length_take_le rs n Hn) at 1.
  eapply legacy_unpack_loop_records; [done|].
  unfold bs. change (0 + sizeof_FileHeader) with sizeof_FileHeader.
  rewrite drop_app_length' by (by rewrite length_FileHeader_bytes).
  apply take_drop_records.
Qed.

(** What is written depends on a record through its path, its content and
    its permission bits only. *)
Lemma fold_write_record_key t rs1 :
  forall rs2 fs,
  (fun r => (r_path r, r_content r, wrap 16 (r_perms r))) <$> rs1 =
  (fun r => (r_path r, r_content r, wrap 16 (r_perms r))) <$> rs2 ->
  fold_left (fun acc r => write_record t r acc) rs1 fs =
  fold_left (fun acc r => write_record t r acc) rs2 fs.
Proof.
  induction rs1 as [|r1 rs1 IH]; intros [|r2 rs2] fs H; try done.
  rewrite !fmap_cons in H. injection H as Hp Hc Hm Hrest.
  cbn [fold_left]. unfold write_record at 2 4. rewrite Hp, Hc, Hm.
  by apply IH.
Qed.

Lemma fold_write_timed (rec : Z -> source_file -> entry_record) t files :
  (forall now f, r_path (rec now f) = rel_path f) ->
  (forall now f, r_content (rec now f) = content f) ->
  (forall now f, r_perms (rec now f) = 420%Z) ->
  forall k fs,
  fold_left (fun acc r => write_record t r acc) (timed rec clock k files) fs =
  extract_all t files fs.
Proof.
  intros Hp Hc Hm. induction files as [|f files IH]; intros k fs; [done|].
  cbn [timed fold_left]. rewrite IH. unfold write_record.
  by rewrite Hp, Hc, Hm.
Qed.

End Legacy_facts.

(** The single-file [unpack] on what the single-file [pack] wrote. *)
Lemma legacy_round_trip (clock : nat -> Z) (uh : FileHeader)
  (ue : nat -> EntryHeader) (files : list source_file) (archive : list byte)
  (target : string) (fs : gmap string file) :
  Legacy.pack clock (Some files) true = Ok archive ->
  (Z.of_nat (length files) < 2 ^ 32)%Z ->
  Forall fits files ->
  Legacy.unpack uh ue (Some archive) target fs =
  (extract_all target files fs, Ok tt).
Proof.
  intros Hpack Hn Hfits.
  assert (E : archive =
              FileHeader_bytes (written_global_header clock (length files))
                ++ records_bytes (timed legacy_record clock 1 files))
    by (rewrite legacy_pack_records in Hpack; congruence).
  rewrite E. clear E Hpack.
  pose proof (length_timed clock legacy_record 1 files) as Lrs.
  rewrite <- (app_nil_r (records_bytes _)).
  rewrite (legacy_unpack_records uh ue _ _ [] (length files) target fs).
  - rewrite take_ge by (by rewrite Lrs).
    by rewrite (fold_write_timed clock legacy_record target files).
  - reflexivity.
  - cbn [written_global_header entry_count]. rewrite wrap_wrap.
    apply wrap_small. lia.
  - by rewrite Lrs.
  - rewrite take_ge by (by rewrite Lrs).
    by apply (timed_fits clock legacy_record).
Qed.

(** X15 (round trip of the single-file archiver). [unpack] of the
    single-file archiver on the container its [pack] made of files whose
    number and sizes fit the fields ends normally and has written every
    file under the target directory, in order, with mode 0644. *)
Theorem legacy_unpack_pack (clock : nat -> Z) (uh : FileHeader)
  (ue : nat -> EntryHeader) (files : list source_file) (archive : list byte)
  (target : string) (fs : gmap string file) :
  Legacy.pack clock (Some files) true = Ok archive ->
  (Z.of_nat (length files) < 2 ^ 32)%Z ->
  Forall fits files ->
  Legacy.unpack uh ue (Some archive) target fs =
  (extract_all target files fs, Ok tt).
Proof. apply legacy_round_trip. Qed.

Lemma legacy_unpack_pack_witness :
  Legacy.unpack zero_header zero_entry
    (Some (FileHeader_bytes (written_global_header test_clock 3)
             ++ Legacy.write_entries test_clock 1 test_files)) "out" ∅ =
  (extract_all "out" test_files ∅, Ok tt).
Proof.
  apply (legacy_unpack_pack test_clock zero_header zero_entry test_files).
  - reflexivity.
  - simpl. lia.
  - exact test_files_fit.
Defined.

Section Legacy_changes.
Variable clock : nat -> Z.

Lemma timed_insert_bytes (rec : Z -> source_file -> entry_record)
  files i f k b r' :
  (forall now g, r_path (rec now g) = rel_path g) ->
  (forall now g, r_content (rec now g) = content g) ->
  files !! i = Some f ->
  k < entry_size f ->
  record_bytes r' = <[k := b]> (record_bytes (rec (clock (S i)) f)) ->
  <[entry_offset files i + k := b]>
    (FileHeader_bytes (written_global_header clock (length files))
       ++ records_bytes (timed rec clock 1 files)) =
  FileHeader_bytes (written_global_header clock (length files))
    ++ records_bytes (<[i := r']> (timed rec clock 1 files)).
Proof.
  intros Hp Hc Hi Hk Hr'. unfold entry_offset.
  rewrite <- (length_FileHeader_bytes (written_global_header clock (length files))).
  rewrite <- (timed_sizes clock rec Hp Hc 1 (take i files)).
  rewrite <- timed_take.
  apply (insert_record _ _ _ (rec (clock (S i)) f)); [| |done].
  - by rewrite (timed_lookup clock rec 1 files i f Hi).
  - unfold record_size. rewrite Hp, Hc. exact Hk.
Qed.

Lemma unpack_records_legacy t k pre rest fs :
  Forall (fun g => CRC32.calculate (content g) = 0%Z) pre ->
  unpack_records t (timed legacy_record clock k pre ++ rest) fs =
  unpack_records t rest (extract_all t pre fs).
Proof.
  intros H. revert k fs. induction H as [|g pre Hg _ IH]; intros k fs; [done|].
  cbn [timed app unpack_records legacy_record r_content r_checksum].
  rewrite Hg. change (0 =? wrap 32 0)%Z with true. cbv iota.
  by rewrite IH.
Qed.

End Legacy_changes.

(** X16 (the single-file archiver detects nothing). In a container made by
    [pack] of the single-file archiver, a change of any byte of the content
    of an entry gives the container it makes of the tree in which that
    file has the changed content: its [unpack] ends normally and writes
    the changed content. *)
Theorem legacy_unpack_accepts_corruption (clock : nat -> Z) (uh : FileHeader)
  (ue : nat -> EntryHeader) (files : list source_file) (archive : list byte)
  (i : nat) (f : source_file) (j : nat) (b : byte)
  (target : string) (fs : gmap string file) :
  Legacy.pack clock (Some files) true = Ok archive ->
  (Z.of_nat (length files) < 2 ^ 32)%Z ->
  Forall fits files ->
  files !! i = Some f ->
  j < length (content f) ->
  Legacy.pack clock
    (Some (<[i := {| rel_path := rel_path f; content := <[j := b]> (content f);
                     mtime := mtime f; mode := mode f |}]> files)) true
    = Ok (<[content_offset files i f + j := b]> archive) ∧
  Legacy.unpack uh ue
    (Some (<[content_offset files i f + j := b]> archive)) target fs =
    (extract_all target
       (<[i := {| rel_path := rel_path f; content := <[j := b]> (content f);
                  mtime := mtime f; mode := mode f |}]> files) fs, Ok tt).
Proof.
  intros Hpack Hn Hfits Hi Hj.
  set (f' := {| rel_path := rel_path f; content := <[j := b]> (content f);
                mtime := mtime f; mode := mode f |}).
  assert (Hf : fits f) by exact (Forall_lookup_1 _ _ _ _ Hfits Hi).
  assert (Hf' : fits f').
  { unfold fits, f'. cbn. rewrite length_insert. exact Hf. }
  assert (Ea : archive =
               FileHeader_bytes (written_global_header clock (length files))
                 ++ records_bytes (timed legacy_record clock 1 files))
    by (rewrite legacy_pack_records in Hpack; congruence).
  assert (E : Legacy.pack clock (Some (<[i := f']> files)) true =
              Ok (<[content_offset files i f + j := b]> archive)).
  { rewrite legacy_pack_records, length_insert. f_equal.
    unfold content_offset. rewrite <- !Nat.add_assoc. rewrite Ea.
    rewrite (timed_insert_bytes clock legacy_record files i f _ b
               (legacy_record (clock (S i)) f')
               (fun _ _ => eq_refl) (fun _ _ => eq_refl) Hi).
    - by rewrite <- (timed_insert_file clock legacy_record files 1 i f').
    - unfold entry_size. lia.
    - unfold record_bytes, record_header.
      cbn [legacy_record f' rel_path content r_path r_content r_mtime
           r_checksum r_perms].
      rewrite length_insert.
      assert (Hins : forall (l1 l2 : list byte) a n x,
                length l1 = a -> <[a + n := x]> (l1 ++ l2) = l1 ++ <[n := x]> l2).
      { intros l1 l2 a n x <-. apply insert_app_r. }
      rewrite Hins by apply length_EntryHeader_bytes.
      by rewrite Hins by apply length_list_byte_of_string. }
  split; [done|].
  eapply legacy_round_trip; [exact E| |].
  - by rewrite length_insert.
  - by apply Forall_insert.
Qed.

Lemma legacy_unpack_accepts_corruption_witness :
  Legacy.pack test_clock
    (Some (<[1 := {| rel_path := rel_path test_b;
                     content := <[0 := "W"%byte]> (content test_b);
                     mtime := mtime test_b; mode := mode test_b |}]> test_files))
    true
    = Ok (<[content_offset test_files 1 test_b + 0 := "W"%byte]>
            (FileHeader_bytes (written_global_header test_clock 3)
               ++ Legacy.write_entries test_clock 1 test_files)) ∧
  Legacy.unpack zero_header zero_entry
    (Some (<[content_offset test_files 1 test_b + 0 := "W"%byte]>
             (FileHeader_bytes (written_global_header test_clock 3)
                ++ Legacy.write_entries test_clock 1 test_files))) "out" ∅ =
    (extract_all "out"
       (<[1 := {| rel_path := rel_path test_b;
                  content := <[0 := "W"%byte]> (content test_b);
                  mtime := mtime test_b; mode := mode test_b |}]> test_files)
       ∅, Ok tt).
Proof.
  apply (legacy_unpack_accepts_corruption test_clock zero_header zero_entry
           test_files _ 1 test_b 0 "W"%byte "out" ∅).
  - reflexivity.
  - simpl. lia.
  - exact test_files_fit.
  - reflexivity.
  - simpl. lia.
Defined.

(** X17 (old containers under the new reader). [unpack] refuses a
    container made by [pack] of the single-file archiver at the first file
    whose CRC-32 is not zero: the files before it are written, and the
    error carries that file's path, the stored value 0 and the CRC-32 of
    its content. *)
Theorem unpack_refuses_legacy_archive (clock : nat -> Z) (uh : FileHeader)
  (ue : nat -> EntryHeader) (files : list source_file) (archive : list byte)
  (i : nat) (f : source_file) (target : string) (fs : gmap string file) :
  Legacy.pack clock (Some files) true = Ok archive ->
  (Z.of_nat (length files) < 2 ^ 32)%Z ->
  Forall fits files ->
  files !! i = Some f ->
  Forall (fun g => CRC32.calculate (content g) = 0%Z) (take i files) ->
  CRC32.calculate (content f) ≠ 0%Z ->
  Archiver.unpack uh ue (Some archive) target fs =
  (extract_all target (take i files) fs,
   Err (CrcMismatch (rel_path f) 0 (CRC32.calculate (content f)))).
Proof.
  intros Hpack Hn Hfits Hi Hpre Hcrc.
  assert (Ea : archive =
               FileHeader_bytes (written_global_header clock (length files))
                 ++ records_bytes (timed legacy_record clock 1 files))
    by (rewrite legacy_pack_records in Hpack; congruence).
  pose proof (length_timed clock legacy_record 1 files) as Lrs.
  rewrite Ea, <- (app_nil_r (records_bytes _)).
  rewrite (unpack_on_container uh ue _ _ [] (length files) target fs).
  - rewrite take_ge by (by rewrite Lrs).
    rewrite <- (take_drop_middle files i f Hi) at 1.
    rewrite <- (Nat.add_0_r 1) at 1.
    rewrite <- (take_drop i (timed _ _ _ (_ ++ _))).
    rewrite timed_take, timed_drop.
    rewrite take_app_length', drop_app_length'
      by (rewrite length_take; apply lookup_lt_Some in Hi; lia).
    rewrite Nat.add_0_r.
    rewrite unpack_records_legacy by done.
    cbn [timed unpack_records legacy_record r_content r_checksum r_path].
    change (wrap 32 0) with 0%Z.
    by destruct (Z.eqb_spec (CRC32.calculate (content f)) 0).
  - reflexivity.
  - cbn [written_global_header entry_count]. rewrite wrap_wrap.
    apply wrap_small. lia.
  - by rewrite Lrs.
  - rewrite take_ge by (by rewrite Lrs).
    by apply (timed_fits clock legacy_record).
Qed.

(** A zero-byte file first, then [a.txt]. *)
Lemma unpack_refuses_legacy_archive_witness :
  Archiver.unpack zero_header zero_entry
    (Some (FileHeader_bytes (written_global_header test_clock 2)
             ++ Legacy.write_entries test_clock 1 [test_empty; test_a]))
    "out" ∅ =
  (extract_all "out" (take 1 [test_empty; test_a]) ∅,
   Err (CrcMismatch (rel_path test_a) 0 (CRC32.calculate (content test_a)))).
Proof.
  apply (unpack_refuses_legacy_archive test_clock zero_header zero_entry
           [test_empty; test_a] _ 1 test_a "out" ∅).
  - reflexivity.
  - simpl. lia.
  - repeat constructor.
  - reflexivity.
  - repeat constructor.
  - vm_compute. discriminate.
Defined.



(* ===================================================================== *)
(** * The command line                                                    *)
(* ===================================================================== *)

Section Main_facts.
Variable clock : nat -> Z.
Variable uninit_header : FileHeader.
Variable uninit_entry : nat -> EntryHeader.
Variable walk : string -> option (list source_file).
Variable creatable : string -> bool.
Variable open_file : string -> option (list byte).

Lemma main_pack prog src dst extra fs :
  Main.main clock uninit_header uninit_entry walk creatable open_file (prog :: "pack" :: src :: dst :: extra) fs =
  match Archiver.pack clock (walk src) (creatable dst) with
  | Ok bytes => Main.succeeded (Packed dst bytes)
  | Err e => Main.failed e NoEffect
  end.
Proof. reflexivity. Qed.

Lemma main_unpack prog a out extra fs :
  Main.main clock uninit_header uninit_entry walk creatable open_file (prog :: "unpack" :: a :: out :: extra) fs =
  match Archiver.unpack uninit_header uninit_entry (open_file a) out fs with
  | (fs', Ok _) => Main.succeeded (Unpacked fs')
  | (fs', Err e) => Main.failed e (Unpacked fs')
  end.
Proof. reflexivity. Qed.

Lemma main_list prog a fs :
  Main.main clock uninit_header uninit_entry walk creatable open_file [prog; "list"; a] fs =
  match Archiver.list uninit_header uninit_entry (open_file a) with
  | Ok l => Main.succeeded (Listed l)
  | Err e => Main.failed e NoEffect
  end.
Proof. reflexivity. Qed.

(** The command lines that run an operation. *)
Lemma main_runs argv fs :
  usage_printed (Main.main clock uninit_header uninit_entry walk creatable open_file argv fs) = false ->
  (exists prog src dst extra, argv = prog :: "pack" :: src :: dst :: extra) ∨
  (exists prog a out extra, argv = prog :: "unpack" :: a :: out :: extra) ∨
  (exists prog a, argv = [prog; "list"; a]).
Proof.
  destruct argv as [|prog [|cmd rest]]; [done..|].
  unfold Main.main. cbn [length Nat.ltb Nat.leb nth].
  destruct (String.eqb_spec cmd "pack") as [->|Hpack].
  { destruct rest as [|src [|dst extra]]; [done..|]. intros _. left.
    by eexists _, _, _, _. }
  destruct (String.eqb_spec cmd "unpack") as [->|Hunpack].
  { destruct rest as [|a [|out extra]]; [done..|]. intros _. right. left.
    by eexists _, _, _, _. }
  destruct (String.eqb_spec cmd "list") as [->|Hlist]; [|done].
  destruct rest as [|a [|x extra]]; [done| |done]. intros _. right. right.
  by eexists _, _.
Qed.

Lemma main_run_shape argv fs :
  (usage_printed (Main.main clock uninit_header uninit_entry walk creatable open_file argv fs) = true -> Main.main clock uninit_header uninit_entry walk creatable open_file argv fs = Main.usage_run) ∧
  (exit_status (Main.main clock uninit_header uninit_entry walk creatable open_file argv fs) = 0%Z <->
   usage_printed (Main.main clock uninit_header uninit_entry walk creatable open_file argv fs) = false ∧ error_line (Main.main clock uninit_header uninit_entry walk creatable open_file argv fs) = None) ∧
  (exit_status (Main.main clock uninit_header uninit_entry walk creatable open_file argv fs) = 0%Z ∨ exit_status (Main.main clock uninit_header uninit_entry walk creatable open_file argv fs) = 1%Z).
Proof.
  assert (Hu : let r := Main.usage_run in
               (usage_printed r = true -> r = Main.usage_run) ∧
               (exit_status r = 0%Z <->
                usage_printed r = false ∧ error_line r = None) ∧
               (exit_status r = 0%Z ∨ exit_status r = 1%Z)).
  { cbn. split; [done|]. split; [|by right]. split; [done|]. by intros [? _]. }
  assert (Hs : forall eff, let r := Main.succeeded eff in
               (usage_printed r = true -> r = Main.usage_run) ∧
               (exit_status r = 0%Z <->
                usage_printed r = false ∧ error_line r = None) ∧
               (exit_status r = 0%Z ∨ exit_status r = 1%Z)).
  { intros eff. cbn. split; [done|]. split; [|by left]. by split. }
  assert (Hf : forall e eff, let r := Main.failed e eff in
               (usage_printed r = true -> r = Main.usage_run) ∧
               (exit_status r = 0%Z <->
                usage_printed r = false ∧ error_line r = None) ∧
               (exit_status r = 0%Z ∨ exit_status r = 1%Z)).
  { intros e eff. cbn. split; [done|]. split; [|by right].
    split; [done|]. by intros [_ ?]. }
  unfold Main.main.
  repeat match goal with
         | |- context [if ?c then _ else _] => destruct c
         end; try apply Hu.
  - destruct (Archiver.pack _ _ _); [apply Hs|apply Hf].
  - destruct (Archiver.unpack _ _ _ _ _) as [fs' [[]|e]]; [apply Hs|apply Hf].
  - destruct (Archiver.list _ _ _); [apply Hs|apply Hf].
Qed.

End Main_facts.

(** X19 (the command line). The program runs an operation exactly on the
    command lines [pack src dst ...], [unpack archive dir ...] (further
    arguments are ignored) and [list archive] (with nothing after it). On
    every other command line it prints the usage text, does nothing and
    exits with status 1. The exit status is 0 or 1, and it is 0 exactly
    when an operation ran and raised no error. *)
Theorem main_command_line (clock : nat -> Z) (uh : FileHeader)
  (ue : nat -> EntryHeader) (walk : string -> option (list source_file))
  (creatable : string -> bool) (open_file : string -> option (list byte))
  (argv : list string) (fs : gmap string file) :
  (usage_printed (Main.main clock uh ue walk creatable open_file argv fs) = false
   <->
   (exists prog src dst extra, argv = prog :: "pack" :: src :: dst :: extra) ∨
   (exists prog a out extra, argv = prog :: "unpack" :: a :: out :: extra) ∨
   (exists prog a, argv = [prog; "list"; a])) ∧
  (usage_printed (Main.main clock uh ue walk creatable open_file argv fs) = true ->
   Main.main clock uh ue walk creatable open_file argv fs = Main.usage_run) ∧
  (exit_status (Main.main clock uh ue walk creatable open_file argv fs) = 0%Z <->
   usage_printed (Main.main clock uh ue walk creatable open_file argv fs) = false ∧
   error_line (Main.main clock uh ue walk creatable open_file argv fs) = None) ∧
  (exit_status (Main.main clock uh ue walk creatable open_file argv fs) = 0%Z ∨
   exit_status (Main.main clock uh ue walk creatable open_file argv fs) = 1%Z).
Proof.
  split; [|apply main_run_shape]. split; [apply main_runs|].
  intros [(prog & src & dst & extra & ->)|
          [(prog & a & out & extra & ->)|(prog & a & ->)]].
  - rewrite main_pack. by destruct (Archiver.pack _ _ _).
  - rewrite main_unpack.
    by destruct (Archiver.unpack _ _ _ _ _) as [fs' [[]|e]].
  - rewrite main_list. by destruct (Archiver.list _ _ _).
Qed.

(** X20 (pack, then unpack). When the walk of [src] yields files whose
    number and sizes fit the fields and the archive can be created,
    [pack src a] exits with status 0 and leaves a container at [a]; and
    [unpack a out] on that container exits with status 0, every file
    written under [out]. *)
Theorem main_pack_then_unpack (clock : nat -> Z) (uh : FileHeader)
  (ue : nat -> EntryHeader) (walk : string -> option (list source_file))
  (creatable : string -> bool) (open1 open2 : string -> option (list byte))
  (prog src a out : string) (files : list source_file)
  (fs : gmap string file) :
  walk src = Some files ->
  creatable a = true ->
  (Z.of_nat (length files) < 2 ^ 32)%Z ->
  Forall fits files ->
  exists archive,
    Main.main clock uh ue walk creatable open1 [prog; "pack"; src; a] fs =
      {| exit_status := 0; usage_printed := false; error_line := None;
         effect_of := Packed a archive |} ∧
    (open2 a = Some archive ->
     Main.main clock uh ue walk creatable open2 [prog; "unpack"; a; out] fs =
       {| exit_status := 0; usage_printed := false; error_line := None;
          effect_of := Unpacked (extract_all out files fs) |}).
Proof.
  intros Hwalk Hcreate Hn Hfits.
  exists (FileHeader_bytes (written_global_header clock (length files))
            ++ Archiver.write_entries clock 1 files).
  split.
  - rewrite main_pack, Hwalk, Hcreate. reflexivity.
  - intros Hopen. rewrite main_unpack, Hopen.
    rewrite (unpack_pack clock uh ue files _ out fs); [done| |done|done].
    reflexivity.
Qed.

Lemma main_pack_then_unpack_witness :
  exists archive,
    Main.main test_clock zero_header zero_entry (fun _ => Some test_files)
      (fun _ => true) (fun _ => None) ["kar"; "pack"; "source"; "test.kar"] ∅ =
      {| exit_status := 0; usage_printed := false; error_line := None;
         effect_of := Packed "test.kar" archive |} ∧
    ((fun _ : string => Some test_archive) "test.kar" = Some archive ->
     Main.main test_clock zero_header zero_entry (fun _ => Some test_files)
       (fun _ => true) (fun _ => Some test_archive)
       ["kar"; "unpack"; "test.kar"; "output"] ∅ =
       {| exit_status := 0; usage_printed := false; error_line := None;
          effect_of := Unpacked (extract_all "output" test_files ∅) |}).
Proof.
  apply (main_pack_then_unpack test_clock zero_header zero_entry
           (fun _ => Some test_files) (fun _ => true) (fun _ => None)
           (fun _ => Some test_archive) "kar" "source" "test.kar" "output"
           test_files ∅).
  - reflexivity.
  - reflexivity.
  - simpl. lia.
  - exact test_files_fit.
Defined.

(** [unpack] on a container of [pack] with one content byte replaced. *)
Lemma unpack_changed_content (clock : nat -> Z) (uh : FileHeader)
  (ue : nat -> EntryHeader) (files : list source_file) (archive : list byte)
  (i : nat) (f : source_file) (j : nat) (old b : byte)
  (target : string) (fs : gmap string file) :
  Archiver.pack clock (Some files) true = Ok archive ->
  (Z.of_nat (length files) < 2 ^ 32)%Z ->
  Forall fits files ->
  files !! i = Some f ->
  content f !! j = Some old ->
  b ≠ old ->
  Archiver.unpack uh ue
    (Some (<[content_offset files i f + j := b]> archive)) target fs =
  (extract_all target (take i files) fs,
   Err (CrcMismatch (rel_path f) (CRC32.calculate (content f))
          (CRC32.calculate (<[j := b]> (content f))))).
Proof.
  intros Hpack Hn Hfits Hi Hj Hb.
  assert (Hf : fits f) by exact (Forall_lookup_1 _ _ _ _ Hfits Hi).
  assert (Hlt : j < length (content f)) by (by eapply lookup_lt_Some).
  pose proof (calculate_insert_ne _ _ _ _ Hj Hb) as Hcrc.
  unfold content_offset. rewrite <- !Nat.add_assoc.
  rewrite (unpack_changed_record clock uh ue files archive i f _ b
             {| r_path := rel_path f; r_content := <[j := b]> (content f);
                r_mtime := clock (S i);
                r_checksum := CRC32.calculate (content f); r_perms := 420 |}
             target fs Hpack Hn Hfits Hi).
  - cbn [unpack_records r_content r_checksum r_path].
    rewrite (wrap_small 32 (CRC32.calculate (content f)))
      by apply calculate_range.
    by destruct (Z.eqb_spec (CRC32.calculate (<[j := b]> (content f)))
                   (CRC32.calculate (content f))).
  - unfold entry_size. lia.
  - unfold record_fits. cbn. rewrite length_insert. exact Hf.
  - unfold record_bytes, record_header.
    cbn [packed_record r_path r_content r_mtime r_checksum r_perms].
    rewrite length_insert.
    assert (Hins : forall (l1 l2 : list byte) a n x,
              length l1 = a -> <[a + n := x]> (l1 ++ l2) = l1 ++ <[n := x]> l2).
    { intros l1 l2 a n x <-. apply insert_app_r. }
    rewrite Hins by apply length_EntryHeader_bytes.
    by rewrite Hins by apply length_list_byte_of_string.
Qed.

(** X21 (a corrupted archive on the command line). When the archive at
    [a] is a container made by [pack] with one byte of the content of an
    entry replaced by a different byte, [unpack a out] exits with status
    1 and its error line is "Error: CRC32 mismatch for file: ", the path
    of the entry, then the stored and the computed checksum in decimal;
    the entries before that one have been written. *)
Theorem main_reports_corruption (clock : nat -> Z) (uh : FileHeader)
  (ue : nat -> EntryHeader) (walk : string -> option (list source_file))
  (creatable : string -> bool) (open_file : string -> option (list byte))
  (prog a out : string) (files : list source_file) (archive : list byte)
  (i : nat) (f : source_file) (j : nat) (old b : byte)
  (fs : gmap string file) :
  Archiver.pack clock (Some files) true = Ok archive ->
  (Z.of_nat (length files) < 2 ^ 32)%Z ->
  Forall fits files ->
  files !! i = Some f ->
  content f !! j = Some old ->
  b ≠ old ->
  open_file a = Some (<[content_offset files i f + j := b]> archive) ->
  Main.main clock uh ue walk creatable open_file [prog; "unpack"; a; out] fs =
    {| exit_status := 1; usage_printed := false;
       error_line :=
         Some ("Error: CRC32 mismatch for file: " +:+ rel_path f
                 +:+ " (expected: "
                 +:+ pretty (Z.to_N (CRC32.calculate (content f)))
                 +:+ ", got: "
                 +:+ pretty (Z.to_N (CRC32.calculate (<[j := b]> (content f))))
                 +:+ ")");
       effect_of := Unpacked (extract_all out (take i files) fs) |}.
Proof.
  intros Hpack Hn Hfits Hi Hj Hb Hopen.
  rewrite main_unpack, Hopen.
  by rewrite (unpack_changed_content clock uh ue files archive i f j old b
                out fs Hpack Hn Hfits Hi Hj Hb).
Qed.

Lemma main_reports_corruption_witness :
  Main.main test_clock zero_header zero_entry (fun _ => None) (fun _ => true)
    (fun _ => Some (<[content_offset test_files 0 test_a + 4 := "x"%byte]>
                      test_archive))
    ["kar"; "unpack"; "test.kar"; "output"] ∅ =
    {| exit_status := 1; usage_printed := false;
       error_line :=
         Some ("Error: CRC32 mismatch for file: " +:+ rel_path test_a
                 +:+ " (expected: "
                 +:+ pretty (Z.to_N (CRC32.calculate (content test_a)))
                 +:+ ", got: "
                 +:+ pretty (Z.to_N (CRC32.calculate
                                       (<[4 := "x"%byte]> (content test_a))))
                 +:+ ")");
       effect_of := Unpacked (extract_all "output" (take 0 test_files) ∅) |}.
Proof.
  apply (main_reports_corruption test_clock zero_header zero_entry
           (fun _ => None) (fun _ => true) _ "kar" "test.kar" "output"
           test_files test_archive 0 test_a 4 "o"%byte "x"%byte ∅).
  - reflexivity.
  - simpl. lia.
  - exact test_files_fit.
  - reflexivity.
  - reflexivity.
  - discriminate.
  - reflexivity.
Defined.


(* ===================================================================== *)
(** * A container cut short                                               *)
(* ===================================================================== *)

Section Truncation.
Variable clock : nat -> Z.
Variable uninit_header : FileHeader.
Variable uninit_entry : nat -> EntryHeader.

Lemma drop_repeat (x : byte) n k : drop k (repeat x n) = repeat x (n - k).
Proof.
  revert k. induction n as [|n IH]; intros k.
  - by destruct k.
  - destruct k as [|k]; [done|]. cbn [repeat drop]. apply IH.
Qed.

(** A [read] of [n] bytes into a zeroed buffer when no more than [n]
    remain: the bytes that remain, then zeros. *)
Lemma read_upto bs p (avail : list byte) n :
  drop p bs = avail ->
  length avail ≤ n ->
  (read (at_pos bs p) n (repeat "000"%byte n)).1 =
  avail ++ repeat "000"%byte (n - length avail).
Proof.
  intros Hd Hn. unfold read, at_pos. cbn [failbit gpos buf]. rewrite Hd.
  case_decide as Hc; cbn [fst].
  - assert (n = length avail) as -> by lia.
    by rewrite take_ge, Nat.sub_diag, app_nil_r.
  - by rewrite drop_repeat.
Qed.

Lemma unpack_loop_last i bs p e pth c1 cut t fs :
  drop p bs = EntryHeader_bytes e ++ pth ++ c1 ->
  wrap 32 (path_length e) = Z.of_nat (length pth) ->
  wrap 64 (content_size e) = Z.of_nat (length c1 + cut) ->
  Archiver.unpack_loop uninit_entry 1 i (at_pos bs p) t fs =
  if (CRC32.calculate (c1 ++ repeat "000"%byte cut) =? wrap 32 (checksum e))%Z
  then (write_file (path_join t (string_of_list_byte pth))
          (c1 ++ repeat "000"%byte cut) (wrap 16 (permissions e)) fs, Ok tt)
  else (fs, Err (CrcMismatch (string_of_list_byte pth) (wrap 32 (checksum e))
                   (CRC32.calculate (c1 ++ repeat "000"%byte cut)))).
Proof.
  intros Hd Hp Hc. cbn [Archiver.unpack_loop].
  pose proof (length_EntryHeader_bytes e) as Le.
  rewrite (read_chunk bs p _ (EntryHeader_bytes e) (pth ++ c1)) by done.
  rewrite EntryHeader_of_bytes_bytes.
  cbn [path_length content_size checksum permissions EntryHeader_wrap].
  rewrite Hp, Hc, !Nat2Z.id.
  assert (Hd1 : drop (p + sizeof_EntryHeader) bs = pth ++ c1).
  { rewrite <- Le. by eapply drop_advance. }
  rewrite (read_chunk _ _ _ pth c1) by done.
  apply drop_advance in Hd1.
  pose proof (read_upto bs _ c1 (length c1 + cut) Hd1 ltac:(lia)) as Hr.
  destruct (read _ (length c1 + cut) _) as [buffer s3]. cbn [fst] in Hr.
  rewrite Hr. replace (length c1 + cut - length c1) with cut by lia.
  by destruct (CRC32.calculate _ =? _)%Z.
Qed.

Lemma extract_all_app t l1 l2 fs :
  extract_all t (l1 ++ l2) fs = extract_all t l2 (extract_all t l1 fs).
Proof. unfold extract_all. apply fold_left_app. Qed.

Lemma unpack_cut files f archive cut target fs :
  Archiver.pack clock (Some (files ++ [f])) true = Ok archive ->
  (Z.of_nat (length (files ++ [f])) < 2 ^ 32)%Z ->
  Forall fits (files ++ [f]) ->
  cut ≤ length (content f) ->
  Archiver.unpack uninit_header uninit_entry
    (Some (take (length archive - cut) archive)) target fs =
  unpack_records target
    [ {| r_path := rel_path f;
         r_content := take (length (content f) - cut) (content f)
                        ++ repeat "000"%byte cut;
         r_mtime := 0;
         r_checksum := CRC32.calculate (content f);
         r_perms := 420 |} ]
    (extract_all target files fs).
Proof.
  intros Hpack Hn Hfits Hcut.
  apply Forall_app in Hfits as [Hfiles Hf]. apply Forall_inv in Hf.
  set (c1 := take (length (content f) - cut) (content f)).
  set (wh := written_header (clock (S (length files))) f).
  set (pth := list_byte_of_string (rel_path f)).
  set (gh := written_global_header clock (length (files ++ [f]))).
  assert (Hlc : length c1 = length (content f) - cut)
    by (unfold c1; rewrite length_take; lia).
  assert (Ea : archive =
               (FileHeader_bytes gh ++ Archiver.write_entries clock 1 files
                  ++ EntryHeader_bytes wh ++ pth) ++ content f).
  { rewrite (pack_inv clock _ archive Hpack), write_entries_app.
    cbn [Archiver.write_entries]. rewrite write_entry_eq, app_nil_r.
    replace (1 + length files) with (S (length files)) by lia.
    by rewrite <- !app_assoc. }
  assert (Ek : take (length archive - cut) archive =
               FileHeader_bytes gh
                 ++ Archiver.write_entries clock 1 files
                 ++ EntryHeader_bytes wh ++ pth ++ c1).
  { rewrite Ea at 2. rewrite Ea, length_app at 1.
    rewrite take_app_ge by lia.
    replace (length _ + length (content f) - cut - length _)
      with (length (content f) - cut) by lia.
    by rewrite <- !app_assoc. }
  rewrite Ek.
  rewrite (unpack_header uninit_header uninit_entry _ gh _ target fs eq_refl).
  unfold gh at 1 2. cbn [written_global_header magic entry_count].
  change (negb (wrap 32 KAR_MAGIC =? KAR_MAGIC)%Z) with false. cbv iota.
  rewrite wrap_wrap, wrap_small, Nat2Z.id by lia.
  rewrite length_app. cbn [length].
  rewrite (unpack_loop_entries clock uninit_entry files 1 0 _ sizeof_FileHeader
             (EntryHeader_bytes wh ++ pth ++ c1) 1 target fs Hfiles)
    by (by rewrite drop_app_length' by (by rewrite length_FileHeader_bytes)).
  destruct (written_header_lengths (clock (S (length files))) f Hf) as [Hp Hc].
  rewrite (unpack_loop_last _ _ _ wh pth c1 cut target).
  - cbn [unpack_records r_content r_checksum r_path r_perms wh written_header
         checksum permissions]. unfold write_record. cbn [r_path r_content r_perms].
    unfold pth. by rewrite string_of_list_byte_of_string.
  - rewrite <- drop_drop.
    rewrite drop_app_length' by (by rewrite length_FileHeader_bytes).
    rewrite <- (length_write_entries clock files 1).
    by rewrite drop_app_length.
  - exact Hp.
  - fold wh in Hc. rewrite Hc, Hlc. f_equal. lia.
Qed.

End Truncation.

(** X24 (a container cut short in its last content). When the end of a
    container made by [pack] is cut off inside the content of its last
    entry, [unpack] writes the entries before it and verifies the last one
    as if the missing bytes were zero bytes. So a cut that removes only
    zero bytes goes unnoticed and the whole tree is restored; a cut that
    removes at most four bytes, not all of them zero, ends in the CRC
    mismatch error. *)
Theorem unpack_truncated_tail (clock : nat -> Z) (uh : FileHeader)
  (ue : nat -> EntryHeader) (files : list source_file) (f : source_file)
  (archive : list byte) (cut : nat) (target : string)
  (fs : gmap string file) :
  Archiver.pack clock (Some (files ++ [f])) true = Ok archive ->
  (Z.of_nat (length (files ++ [f])) < 2 ^ 32)%Z ->
  Forall fits (files ++ [f]) ->
  cut ≤ length (content f) ->
  (drop (length (content f) - cut) (content f) = repeat "000"%byte cut ->
   Archiver.unpack uh ue (Some (take (length archive - cut) archive)) target fs
   = (extract_all target (files ++ [f]) fs, Ok tt)) ∧
  (cut ≤ 4 ->
   drop (length (content f) - cut) (content f) ≠ repeat "000"%byte cut ->
   exists got,
     got ≠ CRC32.calculate (content f) ∧
     Archiver.unpack uh ue (Some (take (length archive - cut) archive)) target fs
     = (extract_all target files fs,
        Err (CrcMismatch (rel_path f) (CRC32.calculate (content f)) got))).
Proof.
  intros Hpack Hn Hfits Hcut.
  rewrite (unpack_cut clock uh ue files f archive cut target fs Hpack Hn Hfits Hcut).
  cbn [unpack_records r_content r_checksum r_path].
  rewrite (wrap_small 32 (CRC32.calculate (content f))) by apply calculate_range.
  split.
  - intros Hz. rewrite <- Hz, take_drop, Z.eqb_refl.
    by rewrite extract_all_app.
  - intros H4 Hnz.
    set (c1 := take (length (content f) - cut) (content f)).
    exists (CRC32.calculate (c1 ++ repeat "000"%byte cut)).
    assert (Hne : CRC32.calculate (c1 ++ repeat "000"%byte cut)
                  ≠ CRC32.calculate (content f)).
    { rewrite <- (take_drop (length (content f) - cut) (content f)) at 1.
      fold c1.
      rewrite <- (app_nil_r (repeat "000"%byte cut)).
      rewrite <- (app_nil_r (drop _ (content f))).
      apply calculate_burst.
      - rewrite repeat_length, length_drop. lia.
      - by rewrite repeat_length.
      - by intros E. }
    split; [done|].
    by destruct (Z.eqb_spec (CRC32.calculate (c1 ++ repeat "000"%byte cut))
                   (CRC32.calculate (content f))).
Qed.

Lemma unpack_truncated_tail_witness :
  (drop (length (list_byte_of_string "data" ++ ["000"; "000"]%byte) - 2)
     (list_byte_of_string "data" ++ ["000"; "000"]%byte)
   = repeat "000"%byte 2 ->
   Archiver.unpack zero_header zero_entry
     (Some (take
              (length (FileHeader_bytes (written_global_header test_clock 2)
                         ++ Archiver.write_entries test_clock 1
                              ([test_a] ++
                               [ {| rel_path := "z.bin";
                                    content := list_byte_of_string "data"
                                                 ++ ["000"; "000"]%byte;
                                    mtime := 0; mode := 420 |} ])) - 2)
              (FileHeader_bytes (written_global_header test_clock 2)
                 ++ Archiver.write_entries test_clock 1
                      ([test_a] ++
                       [ {| rel_path := "z.bin";
                            content := list_byte_of_string "data"
                                         ++ ["000"; "000"]%byte;
                            mtime := 0; mode := 420 |} ])))) "out" ∅
   = (extract_all "out"
        ([test_a] ++
         [ {| rel_path := "z.bin";
              content := list_byte_of_string "data" ++ ["000"; "000"]%byte;
              mtime := 0; mode := 420 |} ]) ∅, Ok tt)) ∧
  (2 ≤ 4 ->
   drop (length (list_byte_of_string "data" ++ ["000"; "000"]%byte) - 2)
     (list_byte_of_string "data" ++ ["000"; "000"]%byte)
   ≠ repeat "000"%byte 2 ->
   exists got,
     got ≠ CRC32.calculate (list_byte_of_string "data" ++ ["000"; "000"]%byte) ∧
     Archiver.unpack zero_header zero_entry
       (Some (take
                (length (FileHeader_bytes (written_global_header test_clock 2)
                           ++ Archiver.write_entries test_clock 1
                                ([test_a] ++
                                 [ {| rel_path := "z.bin";
                                      content := list_byte_of_string "data"
                                                   ++ ["000"; "000"]%byte;
                                      mtime := 0; mode := 420 |} ])) - 2)
                (FileHeader_bytes (written_global_header test_clock 2)
                   ++ Archiver.write_entries test_clock 1
                        ([test_a] ++
                         [ {| rel_path := "z.bin";
                              content := list_byte_of_string "data"
                                           ++ ["000"; "000"]%byte;
                              mtime := 0; mode := 420 |} ])))) "out" ∅
     = (extract_all "out" [test_a] ∅,
        Err (CrcMismatch "z.bin"
               (CRC32.calculate (list_byte_of_string "data" ++ ["000"; "000"]%byte))
               got))).
Proof.
  apply (unpack_truncated_tail test_clock zero_header zero_entry [test_a]
           {| rel_path := "z.bin";
              content := list_byte_of_string "data" ++ ["000"; "000"]%byte;
              mtime := 0; mode := 420 |} _ 2 "out" ∅).
  - reflexivity.
  - simpl. lia.
  - repeat constructor.
  - simpl. lia.
Defined.
